(** * control-samsung-tv: discovery, device cache and key decoding

    A shallow embedding of [control-samsung-tv.ts] and the properties of
    its discovery handler, its merge cache and its keystroke switch.

    Text is modelled as [string] (a sequence of bytes).  The JavaScript
    string methods used by the program are interpreted on the ASCII
    range, which is the alphabet of the SSDP header lines and of the
    terminal keys: bytes above 127 are kept as they are, are neither
    white space nor line terminators and have no upper-case form.  The
    properties in which white space, letter case or line terminators
    play a part are stated for text of the ASCII range. *)

From Stdlib Require Import ZArith Lia Ascii.
From stdpp Require Import gmap strings list fin_maps sorting.

(** ** JavaScript string primitives *)

Module Js.

Definition code (c : ascii) : N := N_of_ascii c.

(** White space of [String.prototype.trim] and of the regular
    expression class [\s] in the ASCII range: TAB, LF, VT, FF, CR and
    SPACE. *)
Definition isSpace (c : ascii) : bool :=
  ((9 <=? code c) && (code c <=? 13) || (code c =? 32))%N.

(** [toUpperCase] on one character of the ASCII range. *)
Definition upper (c : ascii) : ascii :=
  if ((97 <=? code c) && (code c <=? 122))%N
  then ascii_of_N (code c - 32) else c.

Fixpoint toUpperCase (s : string) : string :=
  match s with
  | "" => ""
  | String c r => String (upper c) (toUpperCase r)
  end.

Fixpoint trimStart (s : string) : string :=
  match s with
  | "" => ""
  | String c r => if isSpace c then trimStart r else s
  end.

Fixpoint trimEnd (s : string) : string :=
  match s with
  | "" => ""
  | String c r =>
      match trimEnd r with
      | "" => if isSpace c then "" else String c ""
      | r' => String c r'
      end
  end.

Definition trim (s : string) : string := trimEnd (trimStart s).

(** [stripPrefix eqc p s] is the rest of [s] after a leading [p], the
    characters being compared with [eqc]. *)
Fixpoint stripPrefix (eqc : ascii → ascii → bool) (p s : string)
  : option string :=
  match p, s with
  | "", _ => Some s
  | String a p', String b s' =>
      if eqc a b then stripPrefix eqc p' s' else None
  | String _ _, "" => None
  end.

Definition sameChar (a b : ascii) : bool := bool_decide (a = b).
(** Character equality of a regular expression with the [i] flag. *)
Definition sameCharIgnoreCase (a b : ascii) : bool :=
  bool_decide (upper a = upper b).

Definition startsWith (p s : string) : bool :=
  bool_decide (is_Some (stripPrefix sameChar p s)).

(** [s.includes(needle)] *)
Fixpoint includes (needle s : string) : bool :=
  startsWith needle s ||
  match s with
  | "" => false
  | String _ r => includes needle r
  end.

(** [s.indexOf(c)] for a one-character needle; [None] stands for -1. *)
Fixpoint indexOf (c : ascii) (s : string) : option nat :=
  match s with
  | "" => None
  | String a r => if sameChar a c then Some 0 else S <$> indexOf c r
  end.

(** [s.substring(from)] and [s.substring(0, to)] for indices within
    the string. *)
Fixpoint substringFrom (from : nat) (s : string) : string :=
  match from, s with
  | 0, _ => s
  | S n, String _ r => substringFrom n r
  | S _, "" => ""
  end.

Fixpoint substringTo (to : nat) (s : string) : string :=
  match to, s with
  | 0, _ => ""
  | S n, String c r => String c (substringTo n r)
  | S _, "" => ""
  end.

(** [s.split(sep)] for a one-character separator. *)
Fixpoint split (sep : ascii) (s : string) : list string :=
  match s with
  | "" => [""]
  | String c r =>
      if sameChar c sep then "" :: split sep r
      else match split sep r with
           | [] => [String c ""]
           | w :: ws => String c w :: ws
           end
  end.

(** Longest prefix of [s] whose characters satisfy [f], and the rest. *)
Fixpoint span (f : ascii → bool) (s : string) : string * string :=
  match s with
  | "" => ("", "")
  | String c r =>
      if f c then let '(a, b) := span f r in (String c a, b)
      else ("", s)
  end.

Fixpoint all (f : ascii → bool) (s : string) : bool :=
  match s with
  | "" => true
  | String c r => f c && all f r
  end.

(** Truthiness of a string value. *)
Definition truthy (s : string) : bool := negb (bool_decide (s = "")).

End Js.

(** ** The device record *)

(** [interface DeviceInfo].  The field [friendlyName] is declared a
    string; at run time the program can store [undefined] in it, which
    is [None] here. *)
Record DeviceInfo := mkDevice {
  friendlyName : option string;
  ip : string;
  mac : string
}.

Global Instance DeviceInfo_eq_dec : EqDecision DeviceInfo.
Proof. solve_decision. Defined.

(** ** The discovery handler ([socket.on('message', ...)]) *)

Definition LF : ascii := ascii_of_N 10.
Definition CR : ascii := ascii_of_N 13.

(** Lines 63-70: the header object.  Keys are upper-cased before they
    are stored, so no key is [__proto__] and the object behaves as a
    finite map. *)
Definition parse_line (obj : gmap string string) (line : string)
  : gmap string string :=
  match Js.indexOf ":"%char line with
  | None => obj
  | Some spos =>
      let key := Js.toUpperCase (Js.trim (Js.substringTo spos line)) in
      let value := Js.trim (Js.substringFrom (spos + 1) line) in
      <[key := value]> obj
  end.

Definition parse_lines (lines : list string) : gmap string string :=
  foldl parse_line ∅ lines.

Definition parse_headers (response : string) : gmap string string :=
  parse_lines (Js.split LF response).

(** Line 79: [/<friendlyName>(.*?)<\/friendlyName>/ig].  The dot matches
    every character but a line terminator, which in the ASCII range is
    LF or CR, and the lazy star takes the shortest run that is followed
    by the closing tag. *)
Definition isLineTerminator (c : ascii) : bool :=
  bool_decide (c = LF) || bool_decide (c = CR).

Fixpoint lazy_until_close (s : string) : option string :=
  match Js.stripPrefix Js.sameCharIgnoreCase "</friendlyName>" s with
  | Some _ => Some ""
  | None =>
      match s with
      | "" => None
      | String c r =>
          if isLineTerminator c then None
          else String c <$> lazy_until_close r
      end
  end.

Definition friendlyName_at (s : string) : option string :=
  match Js.stripPrefix Js.sameCharIgnoreCase "<friendlyName>" s with
  | Some rest => lazy_until_close rest
  | None => None
  end.

(** Line 80: [[...result.matchAll(regexp)]?.[0]?.[1]], the first group of
    the leftmost match, [None] (undefined) when nothing matches. *)
Fixpoint first_friendlyName (result : string) : option string :=
  match friendlyName_at result with
  | Some g => Some g
  | None =>
      match result with
      | "" => None
      | String _ r => first_friendlyName r
      end
  end.

(** Line 86: [/WAKEUP:\s*MAC=([0-9a-fA-F:]+)/], with the white space of
    the ASCII range for [\s]. *)
Definition isHexOrColon (c : ascii) : bool :=
  let n := Js.code c in
  ((48 <=? n) && (n <=? 57) || (65 <=? n) && (n <=? 70)
   || (97 <=? n) && (n <=? 102) || (n =? 58))%N.

Definition mac_at (s : string) : option string :=
  match Js.stripPrefix Js.sameChar "WAKEUP:" s with
  | None => None
  | Some r1 =>
      match Js.stripPrefix Js.sameChar "MAC=" (Js.trimStart r1) with
      | None => None
      | Some r2 =>
          match fst (Js.span isHexOrColon r2) with
          | "" => None
          | m => Some m
          end
      end
  end.

(** [response.match(...)]: group 1 of the leftmost match. *)
Fixpoint macMatch (response : string) : option string :=
  match mac_at response with
  | Some m => Some m
  | None =>
      match response with
      | "" => None
      | String _ r => macMatch r
      end
  end.

(** Outcome of [await (await fetch(url)).text()]. *)
Inductive fetched :=
| FetchThrows
| FetchText (result : string).

Definition sentinel_mac : string := "00:00:00:00:00:00".

(** Lines 72-84: the name given to the record. *)
Definition resolve_name (obj : gmap string string) (address : string)
    (f : fetched) : option string :=
  match obj !! "LOCATION" with
  | Some location =>
      if Js.truthy location then
        match f with
        | FetchText result => first_friendlyName result
        | FetchThrows => Some address
        end
      else Some address
  | None => Some address
  end.

(** Lines 59-94.  [f] is what the descriptor fetch yields if the handler
    performs it.  The handler reads and writes no shared state before its
    [await], so its effect on [devices] is the single [push] at its end. *)
Definition on_message (f : fetched) (response address : string)
    (devices : list DeviceInfo) : list DeviceInfo :=
  if Js.includes "Samsung" response then
    let obj := parse_headers response in
    let name := resolve_name obj address f in
    let macAddress :=
      match macMatch response with
      | Some m => m
      | None => sentinel_mac
      end in
    devices ++ [mkDevice name address macAddress]
  else devices.

(** ** The discovery probe ([getSamsungDevices]) *)

(** What the event loop delivers while the promise is pending: a firing
    of the 25 ms interval, with the reading of [Date.now()] it makes; the
    completion of a message handler; or the arrival of a datagram whose
    handler then waits for its descriptor (lines 60-78, which read and
    write no shared state) and completes later. *)
Inductive event :=
| Tick (now : Z)
| Reply (f : fetched) (response address : string)
| Arrives (response address : string).

(** [devices] is the array the handlers push to; [resolved] is the value
    the promise was resolved with, read by the caller as soon as it is
    resolved. *)
Record probe := mkProbe {
  devices : list DeviceInfo;
  resolved : option (list DeviceInfo)
}.

Definition interval_ms : Z := 25.

Section Probe.
Variable timeMs : Z.
Variable startTime : Z.

(** Lines 99-107: the body of the interval callback.  Once the promise
    is resolved the interval is cleared. *)
Definition on_tick (now : Z) (st : probe) : probe :=
  match resolved st with
  | Some _ => st
  | None =>
      let elapsedTime := (now - startTime)%Z in
      if (0 <? length (devices st))%nat || (timeMs <=? elapsedTime)%Z
      then mkProbe (devices st) (Some (devices st))
      else st
  end.

Definition step (st : probe) (e : event) : probe :=
  match e with
  | Tick now => on_tick now st
  | Reply f response address =>
      mkProbe (on_message f response address (devices st)) (resolved st)
  | Arrives _ _ => st
  end.

Definition run (events : list event) : probe :=
  foldl step (mkProbe [] None) events.

(** The value of the promise after the given events, if it is resolved
    by then. *)
Definition getSamsungDevices (events : list event)
  : option (list DeviceInfo) :=
  resolved (run events).

(** The firings of an interval that is never late: the [k]-th one
    reads [startTime + 25 * k]. *)
Definition punctual_ticks (n : nat) : list event :=
  (λ k : nat, Tick (startTime + interval_ms * Z.of_nat k)) <$> seq 1 n.
End Probe.

(** ** JSON documents and [JSON.parse] *)

(** A number keeps its lexeme: the program never computes with one.  The
    members of an object are in the order of their first occurrence, a
    repeated key keeping its last value, as [JSON.parse] builds them. *)
#[warnings="-register-all"]
Inductive json :=
| JNull
| JBool (b : bool)
| JNumber (lexeme : string)
| JString (s : string)
| JArray (items : list json)
| JObject (members : list (string * json)).

Module Json.

Definition isChar (ch c : ascii) : bool := Js.sameChar c ch.

Definition quote : ascii := ascii_of_N 34.

Definition isWs (c : ascii) : bool :=
  isChar " " c || isChar (ascii_of_N 9) c || isChar (ascii_of_N 10) c
  || isChar (ascii_of_N 13) c.

Fixpoint skipWs (s : string) : string :=
  match s with
  | "" => ""
  | String c r => if isWs c then skipWs r else s
  end.

Definition isDigit (c : ascii) : bool :=
  ((48 <=? Js.code c) && (Js.code c <=? 57))%N.

Definition hexDigit (c : ascii) : option N :=
  let n := Js.code c in
  if ((48 <=? n) && (n <=? 57))%N then Some (n - 48)%N
  else if ((65 <=? n) && (n <=? 70))%N then Some (n - 55)%N
  else if ((97 <=? n) && (n <=? 102))%N then Some (n - 87)%N
  else None.

(** The bytes of a [\uXXXX] escape in UTF-8.  The two halves of a
    surrogate pair are kept as separate three-byte sequences. *)
Definition utf8 (n : N) : string :=
  if (n <? 128)%N then String (ascii_of_N n) ""
  else if (n <? 2048)%N then
    String (ascii_of_N (192 + n / 64))
      (String (ascii_of_N (128 + n mod 64)) "")
  else
    String (ascii_of_N (224 + n / 4096))
      (String (ascii_of_N (128 + (n / 64) mod 64))
         (String (ascii_of_N (128 + n mod 64)) "")).

Definition hex4 (a b c d : ascii) : option N :=
  x ← hexDigit a; y ← hexDigit b; z ← hexDigit c; w ← hexDigit d;
  Some (((x * 16 + y) * 16 + z) * 16 + w)%N.

Definition consumed {A} (pre : string) (r : option (string * A))
  : option (string * A) :=
  '(s, rest) ← r; Some (pre +:+ s, rest).

(** The characters of a string literal after its opening quote, with
    the rest of the text after its closing quote. *)
Fixpoint stringBody (s : string) : option (string * string) :=
  match s with
  | "" => None
  | String c r =>
      if isChar quote c then Some ("", r)
      else if isChar "\" c then
        match r with
        | "" => None
        | String e r' =>
            if isChar quote e || isChar "\" e || isChar "/" e
            then consumed (String e "") (stringBody r')
            else if isChar "b" e
            then consumed (String (ascii_of_N 8) "") (stringBody r')
            else if isChar "f" e
            then consumed (String (ascii_of_N 12) "") (stringBody r')
            else if isChar "n" e
            then consumed (String (ascii_of_N 10) "") (stringBody r')
            else if isChar "r" e
            then consumed (String (ascii_of_N 13) "") (stringBody r')
            else if isChar "t" e
            then consumed (String (ascii_of_N 9) "") (stringBody r')
            else if isChar "u" e then
              match r' with
              | String h1 (String h2 (String h3 (String h4 r''))) =>
                  match hex4 h1 h2 h3 h4 with
                  | Some n => consumed (utf8 n) (stringBody r'')
                  | None => None
                  end
              | _ => None
              end
            else None
        end
      else if (Js.code c <? 32)%N then None
      else consumed (String c "") (stringBody r)
  end.

Definition digits1 (s : string) : option (string * string) :=
  let '(ds, rest) := Js.span isDigit s in
  if bool_decide (ds = "") then None else Some (ds, rest).

(** A number: an optional minus sign, an integer part without a
    leading zero, an optional fraction and an optional exponent. *)
Definition number (s : string) : option (string * string) :=
  let '(sign, s1) :=
    match s with
    | String c r => if isChar "-" c then ("-", r) else ("", s)
    | "" => ("", s)
    end in
  '(int, s2) ←
    match s1 with
    | String c r =>
        if isChar "0" c then Some ("0", r)
        else if isDigit c then
          let '(ds, r') := Js.span isDigit r in Some (String c ds, r')
        else None
    | "" => None
    end;
  '(frac, s3) ←
    match s2 with
    | String c r =>
        if isChar "." c then consumed "." (digits1 r) else Some ("", s2)
    | "" => Some ("", s2)
    end;
  '(exp, s4) ←
    match s3 with
    | String c r =>
        if isChar "e" c || isChar "E" c then
          match r with
          | String g r' =>
              if isChar "+" g || isChar "-" g
              then consumed (String c (String g "")) (digits1 r')
              else consumed (String c "") (digits1 r)
          | "" => None
          end
        else Some ("", s3)
    | "" => Some ("", s3)
    end;
  Some (sign +:+ int +:+ frac +:+ exp, s4).

Definition literal (word : string) (j : json) (s : string)
  : option (json * string) :=
  rest ← Js.stripPrefix Js.sameChar word s; Some (j, rest).

(** Property assignment on an ordinary object kept as a member list. *)
Fixpoint set {A} (k : string) (v : A) (ms : list (string * A))
  : list (string * A) :=
  match ms with
  | [] => [(k, v)]
  | (k', v') :: r =>
      if bool_decide (k = k') then (k, v) :: r else (k', v') :: set k v r
  end.

Definition object (ms : list (string * json)) : json :=
  JObject (foldl (λ acc kv, set kv.1 kv.2 acc) [] ms).

(** Recursive descent.  Every second nested call at the latest has
    consumed a character, so fuel twice the length of the text is
    never used up. *)
Fixpoint value (fuel : nat) (s : string) {struct fuel}
  : option (json * string) :=
  match fuel with
  | 0 => None
  | S fuel =>
      match skipWs s with
      | "" => None
      | String c r =>
          if isChar "{" c then
            match skipWs r with
            | "" => None
            | String c' r' =>
                if isChar "}" c' then Some (JObject [], r')
                else '(ms, rest) ← members fuel (String c' r');
                     Some (object ms, rest)
            end
          else if isChar "[" c then
            match skipWs r with
            | "" => None
            | String c' r' =>
                if isChar "]" c' then Some (JArray [], r')
                else '(vs, rest) ← elements fuel (String c' r');
                     Some (JArray vs, rest)
            end
          else if isChar quote c then
            '(str, rest) ← stringBody r; Some (JString str, rest)
          else if isChar "t" c then literal "true" (JBool true) (String c r)
          else if isChar "f" c then literal "false" (JBool false) (String c r)
          else if isChar "n" c then literal "null" JNull (String c r)
          else '(lexeme, rest) ← number (String c r);
               Some (JNumber lexeme, rest)
      end
  end
with elements (fuel : nat) (s : string) {struct fuel}
  : option (list json * string) :=
  match fuel with
  | 0 => None
  | S fuel =>
      '(v, r) ← value fuel s;
      match skipWs r with
      | "" => None
      | String c r' =>
          if isChar "," c then
            '(vs, rest) ← elements fuel r'; Some (v :: vs, rest)
          else if isChar "]" c then Some ([v], r')
          else None
      end
  end
with members (fuel : nat) (s : string) {struct fuel}
  : option (list (string * json) * string) :=
  match fuel with
  | 0 => None
  | S fuel =>
      match skipWs s with
      | "" => None
      | String q r =>
          if isChar quote q then
            '(k, r1) ← stringBody r;
            match skipWs r1 with
            | "" => None
            | String c r2 =>
                if isChar ":" c then
                  '(v, r3) ← value fuel r2;
                  match skipWs r3 with
                  | "" => None
                  | String c' r4 =>
                      if isChar "," c' then
                        '(ms, rest) ← members fuel r4;
                        Some ((k, v) :: ms, rest)
                      else if isChar "}" c' then Some ([(k, v)], r4)
                      else None
                  end
                else None
            end
          else None
      end
  end.

(** [JSON.parse(text)]; [None] stands for the [SyntaxError]. *)
Definition parse (text : string) : option json :=
  '(j, rest) ← value (2 * String.length text + 2) text;
  if bool_decide (skipWs rest = "") then Some j else None.

End Json.

(** ** The device cache ([getCachedSamsungDevices]) *)

(** A property of [result] is a value read from the cache file or a
    record stored by this run. *)
Inductive entry :=
| Cached (j : json)
| Fresh (device : DeviceInfo).

(** The values [result] can hold after line 126: an ordinary object, an
    array (its elements, [None] for a hole, and its other properties) or
    [null]. *)
Inductive heap_value :=
| Obj (m : gmap string entry)
| Arr (items : list (option entry)) (props : gmap string entry)
| Null.

(** The cache file as [readFile] finds it. *)
Inductive cache_file :=
| Unreadable
| Content (text : string).

Definition typeof (j : json) : string :=
  match j with
  | JBool _ => "boolean"
  | JNumber _ => "number"
  | JString _ => "string"
  | JNull | JArray _ | JObject _ => "object"
  end.

Definition object_of (members : list (string * json)) : gmap string entry :=
  foldl (λ m kv, <[kv.1 := Cached kv.2]> m) ∅ members.

(** Lines 121-126. *)
Definition load (f : cache_file) : heap_value :=
  let result :=
    match f with
    | Content text =>
        match Json.parse text with
        | Some j => j
        | None => JObject []
        end
    | Unreadable => JObject []
    end in
  let result :=
    if bool_decide (typeof result ≠ "object") then JObject [] else result in
  match result with
  | JObject members => Obj (object_of members)
  | JArray items => Arr (Some ∘ Cached <$> items) ∅
  | _ => Null
  end.

(** Line 131 on an ordinary object, over the whole loop of lines
    130-132.  A MAC address is the sentinel or a run of hexadecimal
    digits and colons, so the assignment always creates or replaces an
    own property. *)
Definition merge (existing : gmap string entry) (fresh : list DeviceInfo)
  : gmap string entry :=
  foldl (λ result device, <[mac device := Fresh device]> result)
        existing fresh.

Fixpoint decimal (acc : N) (digits : string) : N :=
  match digits with
  | "" => acc
  | String c r => decimal (acc * 10 + (Js.code c - 48)) r
  end.

(** An array index is a decimal numeral without a leading zero whose
    value is below 2^32 - 1. *)
Definition arrayIndex (key : string) : option nat :=
  if bool_decide (key = "") || negb (Js.all Json.isDigit key) then None
  else if Js.startsWith "0" key && negb (bool_decide (key = "0")) then None
  else
    let n := decimal 0 key in
    if (n <? 4294967295)%N then Some (N.to_nat n) else None.

Definition array_store {A} (i : nat) (v : A) (items : list (option A))
  : list (option A) :=
  if bool_decide (i < length items) then <[i := Some v]> items
  else items ++ replicate (i - length items) None ++ [Some v].

(** Line 131 on whatever [result] holds; [None] is the exception thrown
    by the assignment. *)
Definition put (result : heap_value) (key : string) (v : entry)
  : option heap_value :=
  match result with
  | Obj m => Some (Obj (<[key := v]> m))
  | Arr items props =>
      match arrayIndex key with
      | Some i => Some (Arr (array_store i v items) props)
      | None =>
          if bool_decide (key = "length") then None
          else Some (Arr items (<[key := v]> props))
      end
  | Null => None
  end.

(** Lines 130-132. *)
Fixpoint assign_all (result : heap_value) (fresh : list DeviceInfo)
  : option heap_value :=
  match fresh with
  | [] => Some result
  | device :: rest =>
      result' ← put result (mac device) (Fresh device);
      assign_all result' rest
  end.

(** [JSON.stringify] leaves out a property whose value is undefined. *)
Definition device_json (d : DeviceInfo) : json :=
  JObject
    (match friendlyName d with
     | Some name => [("friendlyName", JString name)]
     | None => []
     end ++ [("ip", JString (ip d)); ("mac", JString (mac d))]).

(** A number read by [JSON.parse] is a double.  Its lexeme denotes the
    decimal [significand * 10 ^ power]; that decimal is rounded to zero
    up to [2 ^ -1075] and to an infinity from [2 ^ 1024 - 2 ^ 970] on. *)
Definition significand_and_power (lexeme : string) : N * Z :=
  let unsigned :=
    match lexeme with
    | String c r => if Js.sameChar c "-" then r else lexeme
    | "" => lexeme
    end in
  let '(int, rest) := Js.span Json.isDigit unsigned in
  let '(frac, rest) :=
    match rest with
    | String c r => if Js.sameChar c "." then Js.span Json.isDigit r
                    else ("", rest)
    | "" => ("", rest)
    end in
  let exponent : Z :=
    match rest with
    | String _ (String g r) =>
        if Js.sameChar g "-" then (- Z.of_N (decimal 0 r))%Z
        else if Js.sameChar g "+" then Z.of_N (decimal 0 r)
        else Z.of_N (decimal 0 (String g r))
    | _ => 0%Z
    end in
  (decimal 0 (int +:+ frac),
   (exponent - Z.of_nat (String.length frac))%Z).

Inductive magnitude :=
| IsZero
| IsFinite
| IsInfinite.

Definition magnitude_of (lexeme : string) : magnitude :=
  let '(significand, power) := significand_and_power lexeme in
  let d := Z.of_N significand in
  let infinite_from := (2 ^ 1024 - 2 ^ 970)%Z in
  if (d =? 0)%Z then IsZero
  else if (0 <=? power)%Z then
    if (infinite_from <=? d * 10 ^ power)%Z then IsInfinite else IsFinite
  else if (infinite_from * 10 ^ (- power) <=? d)%Z then IsInfinite
  else if (d * 2 ^ 1075 <=? 10 ^ (- power))%Z then IsZero
  else IsFinite.

(** The order in which the properties of an object are visited: the
    array indices first, in ascending order, then the other keys in the
    order of their creation. *)
Definition index_le {A} (a b : nat * A) : Prop := a.1 ≤ b.1.

#[global] Instance index_le_dec {A} (a b : nat * A) : Decision (index_le a b) :=
  decide (a.1 ≤ b.1).

Definition property_order {A} (members : list (string * A))
  : list (string * A) :=
  (snd <$> merge_sort index_le
             (omap (λ kv, i ← arrayIndex kv.1; Some (i, kv)) members))
  ++ filter (λ kv, arrayIndex kv.1 = None) members.

(** What [JSON.stringify] writes for a value that [JSON.parse] read: an
    infinite number as [null] and a zero, whatever its sign, as [0].
    Another number is recorded by the lexeme it was read from, which
    stands for the double it denotes: the digits printed for it are not
    modelled. *)
Fixpoint written_json (j : json) : json :=
  match j with
  | JNumber lexeme =>
      match magnitude_of lexeme with
      | IsZero => JNumber "0"
      | IsFinite => JNumber lexeme
      | IsInfinite => JNull
      end
  | JArray items => JArray (List.map written_json items)
  | JObject members =>
      JObject
        (property_order (List.map (λ kv, (kv.1, written_json kv.2)) members))
  | JNull | JBool _ | JString _ => j
  end.

Definition entry_json (e : entry) : json :=
  match e with
  | Cached j => written_json j
  | Fresh d => device_json d
  end.

(** What is written to the cache file, up to the order of the members
    of the outer object. *)
Inductive document :=
| DObject (m : gmap string json)
| DArray (items : list json)
| DNull.

(** [JSON.stringify(result)]: of an array only the elements are
    written, a hole as [null]. *)
Definition stringify (result : heap_value) : document :=
  match result with
  | Obj m => DObject (entry_json <$> m)
  | Arr items _ => DArray (from_option entry_json JNull <$> items)
  | Null => DNull
  end.

(** [Object.values(result)], [None] for the [TypeError] on [null].  The
    order in which the properties of an object are listed is not
    modelled. *)
Definition values (result : heap_value) : option (list entry) :=
  match result with
  | Obj m => Some (map_to_list m).*2
  | Arr items props => Some (omap id items ++ (map_to_list props).*2)
  | Null => None
  end.

(** [written] is the document that [writeFile] wrote, if the function
    gets that far; [returned] is the value of the promise, [None] when it
    is rejected. *)
Record outcome := mkOutcome {
  written : option document;
  returned : option (list entry)
}.

(** What can go wrong on line 134, outside the [try]: [JSON.stringify]
    throws when the value is nested too deep for the stack, and
    [writeFile] rejects, for one when the directory of the cache file is
    missing. *)
Record saving := mkSaving {
  stringify_throws : bool;
  writeFile_rejects : bool
}.

Definition saving_succeeds : saving := mkSaving false false.

Definition save_fails (s : saving) : bool :=
  stringify_throws s || writeFile_rejects s.

(** Lines 120-136, given the list [getSamsungDevices] resolved with.
    When the save fails the promise is rejected. *)
Definition getCachedSamsungDevices_in (s : saving) (f : cache_file)
    (discovered : list DeviceInfo) : outcome :=
  match assign_all (load f) discovered with
  | None => mkOutcome None None
  | Some result =>
      if stringify_throws s then mkOutcome None None
      else if writeFile_rejects s then mkOutcome None None
      else mkOutcome (Some (stringify result)) (values result)
  end.

(** Lines 120-136 when the save succeeds. *)
Definition getCachedSamsungDevices (f : cache_file)
    (discovered : list DeviceInfo) : outcome :=
  getCachedSamsungDevices_in saving_succeeds f discovered.

(** ** The key loop of [main] *)

Inductive Keys :=
| KEY_0 | KEY_1 | KEY_2 | KEY_3 | KEY_4 | KEY_5 | KEY_6 | KEY_7 | KEY_8
| KEY_9 | KEY_UP | KEY_DOWN | KEY_RIGHT | KEY_LEFT | KEY_BACK_MHP
| KEY_HOME | KEY_ENTER | KEY_PLAY | KEY_VOLUP | KEY_VOLDOWN | KEY_CHUP
| KEY_CHDOWN | KEY_POWER.

Inductive remote_call :=
| sendKey (k : Keys)
| sendKeys (ks : list Keys).

(** One turn of the loop: the calls made on the remote and whether the
    process exits. *)
Record turn := mkTurn {
  calls : list remote_call;
  exits : bool
}.

Definition NUL : ascii := ascii_of_N 0.
Definition ETX : string := String (ascii_of_N 3) "".
Definition ESC : string := String (ascii_of_N 27) "".
Definition DEL : string := String (ascii_of_N 127) "".

Fixpoint removeNul (s : string) : string :=
  match s with
  | "" => ""
  | String c r =>
      if bool_decide (c = NUL) then removeNul r else String c (removeNul r)
  end.

(** Line 189: [buffer.slice(0, bytesRead).toString().replace(/\u0000/g, '')]. *)
Definition read_key (buffer : string) (bytesRead : nat) : string :=
  removeNul (Js.substringTo bytesRead buffer).

Definition press (k : Keys) : turn := mkTurn [sendKey k] false.

(** Lines 193-230: the cases of the switch, in their order. *)
Definition key_cases : list (string * turn) :=
  [ ("0", press KEY_0); ("1", press KEY_1); ("2", press KEY_2);
    ("3", press KEY_3); ("4", press KEY_4); ("5", press KEY_5);
    ("6", press KEY_6); ("7", press KEY_7); ("8", press KEY_8);
    ("9", press KEY_9);
    (ESC +:+ "[A", press KEY_UP);
    (ESC +:+ "[B", press KEY_DOWN);
    (ESC +:+ "[C", press KEY_RIGHT);
    (ESC +:+ "[D", press KEY_LEFT);
    (DEL, press KEY_BACK_MHP);
    (ESC, press KEY_HOME);
    (String CR "", press KEY_ENTER);
    ("p", press KEY_PLAY);
    ("+", press KEY_VOLUP);
    ("-", press KEY_VOLDOWN);
    ("w", press KEY_CHUP);
    ("s", press KEY_CHDOWN);
    ("q", mkTurn [sendKeys [KEY_POWER]] true);
    (ETX, mkTurn [] true);
    ("f", mkTurn [] true) ].

(** The [default] case makes no call on the remote. *)
Definition unmapped : turn := mkTurn [] false.

Fixpoint switch (key : string) (cases : list (string * turn)) : turn :=
  match cases with
  | [] => unmapped
  | (label, body) :: rest =>
      if bool_decide (key = label) then body else switch key rest
  end.

Definition dispatch (key : string) : turn := switch key key_cases.

(** Lines 186-230: one turn of the loop on what one [read] returned. *)
Definition main_turn (buffer : string) (bytesRead : nat) : turn :=
  dispatch (read_key buffer bytesRead).


(** ** Vocabulary of the properties *)

(** A header block: the text of its lines, joined by line feeds. *)
Fixpoint unlines (lines : list string) : string :=
  match lines with
  | [] => ""
  | [l] => l
  | l :: rest => l +:+ String LF (unlines rest)
  end.

(** A line of a block holds no line feed. *)
Definition is_line (l : string) : Prop := Js.indexOf LF l = None.

(** The colon-separated form of a MAC address: six pairs of hexadecimal
    digits separated by colons, in either letter case. *)
Fixpoint hex_pairs (n : nat) (s : string) : bool :=
  match n, s with
  | S n', String a (String b r) =>
      bool_decide (is_Some (Json.hexDigit a))
      && bool_decide (is_Some (Json.hexDigit b))
      && match n', r with
         | 0, "" => true
         | S _, String c r' => Js.sameChar c ":" && hex_pairs n' r'
         | _, _ => false
         end
  | _, _ => false
  end.

Definition colon_separated_hex (s : string) : bool := hex_pairs 6 s.

(** The last record of a discovery pass that carries the MAC [k]. *)
Definition last_fresh (k : string) (fresh : list DeviceInfo)
  : option DeviceInfo :=
  last (filter (λ d, mac d = k) fresh).

Definition is_tick (e : event) : Prop :=
  match e with
  | Tick _ => True
  | Reply _ _ _ | Arrives _ _ => False
  end.

(** Text of the ASCII range.  The strings of the program are modelled by
    their bytes, which are its characters for such text; the white space,
    the letter case and the line terminators of the model are those of
    the ASCII range. *)
Definition is_ascii (s : string) : Prop :=
  forallb (λ c, (N_of_ascii c <? 128)%N) (String.list_ascii_of_string s) = true.

(** The white space of ASCII text: TAB, LF, VT, FF, CR and SPACE. *)
Definition blank (c : ascii) : bool :=
  existsb (Ascii.eqb c) ["009"; "010"; "011"; "012"; "013"; " "]%char.

Definition blanks (s : string) : Prop :=
  forallb blank (String.list_ascii_of_string s) = true.

(** [t] is [s] without the white space at its two ends. *)
Definition stripped (s t : string) : Prop :=
  (∃ ws1 ws2, s = ws1 +:+ t +:+ ws2 ∧ blanks ws1 ∧ blanks ws2)
  ∧ (∀ c r, t = String c r → blank c = false)
  ∧ (∀ r c, t = r +:+ String c "" → blank c = false).

(** The capital of a small letter; any other character is its own. *)
Fixpoint capital_among (small capital : list ascii) (c : ascii) : ascii :=
  match small, capital with
  | a :: small', b :: capital' =>
      if Ascii.eqb c a then b else capital_among small' capital' c
  | _, _ => c
  end.

Definition capital (c : ascii) : ascii :=
  capital_among (String.list_ascii_of_string "abcdefghijklmnopqrstuvwxyz")
                (String.list_ascii_of_string "ABCDEFGHIJKLMNOPQRSTUVWXYZ") c.

Definition capitals (s : string) : string :=
  String.string_of_list_ascii (List.map capital (String.list_ascii_of_string s)).

(** A hexadecimal digit or a colon. *)
Definition hex_or_colon (c : ascii) : bool :=
  existsb (Ascii.eqb c) (String.list_ascii_of_string "0123456789abcdefABCDEF:").

Definition hex_or_colons (s : string) : Prop :=
  forallb hex_or_colon (String.list_ascii_of_string s) = true.

(** [m] is a token of the WAKEUP pattern in [response], after [pre]: it
    follows [WAKEUP:], white space if any and [MAC=], and is a run of
    hexadecimal digits and colons that cannot be extended. *)
Definition wakeup_token (response pre m : string) : Prop :=
  ∃ ws post,
    response = pre +:+ "WAKEUP:" +:+ ws +:+ "MAC=" +:+ m +:+ post
    ∧ blanks ws ∧ m ≠ "" ∧ hex_or_colons m
    ∧ (∀ c r, post = String c r → hex_or_colon c = false).





(** [response] has the start of a token after [pre]. *)
Definition wakeup_token_starts (response pre : string) : Prop :=
  ∃ ws c rest,
    response = pre +:+ "WAKEUP:" +:+ ws +:+ "MAC=" +:+ String c rest
    ∧ blanks ws ∧ hex_or_colon c = true.


(** ** The cache path ([getCachePath]) *)

Definition cache_name : string :=
  "badisi-samsung-tv-remote-device-cache.json".

(** [variable || fallback ()]: a variable that is undefined or empty
    gives way to the fallback, which is evaluated only then. *)
Definition orElse (variable : option string) (fallback : option string)
  : option string :=
  match variable with
  | Some s => if Js.truthy s then Some s else fallback
  | None => fallback
  end.

(** Lines 112-118, given what [process.platform],
    [process.env.LOCALAPPDATA], [process.env.XDG_CACHE_HOME] and
    [os.homedir()] evaluate to: a variable is [None] when it is
    undefined, and [homedir] is [None] when the call throws, which makes
    [getCachePath] throw if it is reached. *)
Definition getCachePath (platform : string)
    (LOCALAPPDATA XDG_CACHE_HOME homedir : option string) (name : string)
  : option string :=
  if bool_decide (platform = "darwin")
  then (λ home, home +:+ "/Library/Caches/" +:+ name) <$> homedir
  else if bool_decide (platform = "win32")
  then (λ dir, dir +:+ "/" +:+ name)
       <$> orElse LOCALAPPDATA ((λ home, home +:+ "/AppData/Local") <$> homedir)
  else (λ dir, dir +:+ "/" +:+ name)
       <$> orElse XDG_CACHE_HOME ((λ home, home +:+ "/.cache") <$> homedir).

(** Line 120. *)
Definition cachePath (platform : string)
    (LOCALAPPDATA XDG_CACHE_HOME homedir : option string) : option string :=
  getCachePath platform LOCALAPPDATA XDG_CACHE_HOME homedir cache_name.

(** ** Device selection and the session ([main]) *)

(** [parseInt(key)], [None] for NaN: leading white space is skipped, a
    sign is read, the prefix [0x] or [0X] switches to radix 16, and the
    longest run of digits of the radix is the value.  The value is the
    exact integer; the program uses it only as an index. *)
Definition digitValue (radix : N) (c : ascii) : option N :=
  v ← Json.hexDigit c; if (v <? radix)%N then Some v else None.

Fixpoint digitsValue (radix : N) (acc : option N) (s : string) : option N :=
  match s with
  | "" => acc
  | String c r =>
      match digitValue radix c with
      | Some v => digitsValue radix (Some (default 0%N acc * radix + v)%N) r
      | None => acc
      end
  end.

Definition parseInt (s : string) : option Z :=
  let s := Js.trimStart s in
  let '(negative, s) :=
    match s with
    | String c r =>
        if Js.sameChar c "-" then (true, r)
        else if Js.sameChar c "+" then (false, r)
        else (false, s)
    | "" => (false, s)
    end in
  let '(radix, s) :=
    if Js.startsWith "0x" s || Js.startsWith "0X" s
    then (16%N, Js.substringFrom 2 s) else (10%N, s) in
  match digitsValue radix None s with
  | Some n => Some (if negative : bool then - Z.of_N n else Z.of_N n)%Z
  | None => None
  end.

Inductive session_call :=
| wakeTV
| remote (c : remote_call).

(** How far the process got: still reading keys, [process.exit(-1)] or
    [process.exit()]. *)
Inductive ending :=
| Running
| ExitFailure
| ExitSuccess.

(** Lines 185-231 over the reads that follow: the calls made on the
    remote, and whether the process has exited. *)
Fixpoint key_loop (reads : list (string * nat)) : list remote_call * bool :=
  match reads with
  | [] => ([], false)
  | (buffer, bytesRead) :: rest =>
      let t := main_turn buffer bytesRead in
      if exits t then (calls t, true)
      else let '(cs, exited) := key_loop rest in (calls t ++ cs, exited)
  end.

Section Main.
(** The elements of [devices] are whatever [Object.values] returned;
    [truthy] is their truthiness. *)
Context {A : Type} (truthy : A → bool).

(** [devices[number]], [None] for undefined. *)
Definition element (devices : list A) (number : option Z) : option A :=
  match number with
  | Some n => if (0 <=? n)%Z then devices !! Z.to_nat n else None
  | None => None
  end.

Inductive choice :=
| NoDevice
| Cancelled
| Chosen (d : A)
| AwaitingKey.

(** Lines 164-172, with the reads left for the key loop. *)
Fixpoint select_loop (devices : list A) (reads : list (string * nat))
  : choice * list (string * nat) :=
  match reads with
  | [] => (AwaitingKey, [])
  | (buffer, bytesRead) :: rest =>
      let key := read_key buffer bytesRead in
      if bool_decide (key = "q") then (Cancelled, rest)
      else
        match element devices (parseInt key) with
        | Some selectedDevice =>
            if truthy selectedDevice then (Chosen selectedDevice, rest)
            else select_loop devices rest
        | None => select_loop devices rest
        end
  end.

(** Lines 149-173. *)
Definition choose_device (devices : list A) (reads : list (string * nat))
  : choice * list (string * nat) :=
  match devices with
  | [] => (NoDevice, reads)
  | [d] => (Chosen d, reads)
  | _ => select_loop devices reads
  end.

Record main_run := mkRun {
  selectedDevice : option A;
  session : list session_call;
  finish : ending
}.

(** Lines 148-231, given the devices [getCachedSamsungDevices] returned
    and what the reads of standard input return.  The making of the
    remote and the calls on it are taken to succeed; reading
    [selectedDevice.ip] on line 178 throws when the device is [null],
    which a single device taken without the test of line 172 can be. *)
Definition main (devices : list A) (reads : list (string * nat))
  : main_run :=
  match choose_device devices reads with
  | (NoDevice, _) => mkRun None [] ExitFailure
  | (Cancelled, _) => mkRun None [] ExitFailure
  | (AwaitingKey, _) => mkRun None [] Running
  | (Chosen d, rest) =>
      let '(cs, exited) := key_loop rest in
      mkRun (Some d) (wakeTV :: (remote <$> cs))
            (if exited then ExitSuccess else Running)
  end.
End Main.

(** ** Vocabulary of the further properties *)

(** The record that the handler of an accepted reply pushes. *)
Definition record_of (f : fetched) (response address : string) : DeviceInfo :=
  mkDevice (resolve_name (parse_headers response) address f) address
           (default sentinel_mac (macMatch response)).

(** The records of the accepted replies among the events, in order. *)
Definition records (events : list event) : list DeviceInfo :=
  omap (λ e, match e with
             | Reply f response address =>
                 if Js.includes "Samsung" response
                 then Some (record_of f response address) else None
             | Tick _ | Arrives _ _ => None
             end) events.

(** The key and value a header line stores, if it has a colon. *)
Definition header_of (line : string) : option (string * string) :=
  spos ← Js.indexOf ":" line;
  Some (Js.toUpperCase (Js.trim (Js.substringTo spos line)),
        Js.trim (Js.substringFrom (spos + 1) line)).

(** The values that the lines of a block give to the key [K], in the
    order of the lines. *)
Definition values_of (K : string) (lines : list string) : list string :=
  omap (λ l, match header_of l with
             | Some (k, v) => if bool_decide (k = K) then Some v else None
             | None => None
             end) lines.


(** The MAC addresses of a discovery pass, as a set. *)
Definition macs (fresh : list DeviceInfo) : gset string :=
  list_to_set (mac <$> fresh).

Definition is_mac_text (m : string) : Prop :=
  m ≠ "" ∧ Js.all isHexOrColon m = true.


(** * Properties *)

(** ** Strings *)

Section StringFacts.
Implicit Types (s r k v p : string) (c : ascii) (f : ascii → bool).

Lemma app_cons c s r : String c s +:+ r = String c (s +:+ r).
Proof. reflexivity. Qed.

Lemma app_empty_l s : "" +:+ s = s.
Proof. reflexivity. Qed.


Lemma app_assoc' s r p : (s +:+ r) +:+ p = s +:+ (r +:+ p).
Proof. induction s as [|c s IH]; [done|]. by rewrite ?app_cons, IH. Qed.

Lemma sameChar_true a b : Js.sameChar a b = true ↔ a = b.
Proof. unfold Js.sameChar. by rewrite bool_decide_eq_true. Qed.

Lemma sameChar_false a b : Js.sameChar a b = false ↔ a ≠ b.
Proof. unfold Js.sameChar. by rewrite bool_decide_eq_false. Qed.

Lemma sameChar_refl a : Js.sameChar a a = true.
Proof. by apply sameChar_true. Qed.

(** *** [indexOf], [substring] and [split] *)

Lemma indexOf_first c k v :
  Js.indexOf c k = None →
  Js.indexOf c (k +:+ String c v) = Some (String.length k).
Proof.
  induction k as [|a k IH]; simpl; intros H.
  - by rewrite ?app_empty_l; simpl; rewrite sameChar_refl.
  - rewrite ?app_cons; simpl. destruct (Js.sameChar a c); [done|].
    destruct (Js.indexOf c k); [done|]. by rewrite IH.
Qed.

Lemma indexOf_None_app c k v :
  Js.indexOf c k = None → Js.indexOf c v = None →
  Js.indexOf c (k +:+ v) = None.
Proof.
  induction k as [|a k IH]; simpl; intros H1 H2; [done|].
  rewrite ?app_cons; simpl. destruct (Js.sameChar a c); [done|].
  destruct (Js.indexOf c k); [done|]. by rewrite IH.
Qed.

Lemma substringTo_app k r : Js.substringTo (String.length k) (k +:+ r) = k.
Proof.
  induction k as [|a k IH]; simpl; [done|]. by rewrite ?app_cons, IH.
Qed.

Lemma substringFrom_app k c v :
  Js.substringFrom (String.length k + 1) (k +:+ String c v) = v.
Proof. induction k as [|a k IH]; simpl; [done|]. by rewrite ?app_cons. Qed.

Lemma split_nonempty c s : Js.split c s ≠ [].
Proof.
  destruct s as [|a s]; simpl; [done|].
  destruct (Js.sameChar a c); [done|]. by destruct (Js.split c s).
Qed.

Lemma split_one c s : Js.indexOf c s = None → Js.split c s = [s].
Proof.
  induction s as [|a s IH]; simpl; [done|].
  destruct (Js.sameChar a c); [done|].
  destruct (Js.indexOf c s); [done|]. intros _. by rewrite IH.
Qed.

Lemma split_app c k r :
  Js.indexOf c k = None →
  Js.split c (k +:+ String c r) = k :: Js.split c r.
Proof.
  induction k as [|a k IH]; simpl; intros H.
  - by rewrite ?app_empty_l; simpl; rewrite sameChar_refl.
  - rewrite ?app_cons; simpl. destruct (Js.sameChar a c); [done|].
    destruct (Js.indexOf c k); [done|]. by rewrite IH.
Qed.

(** *** [trim] *)

Lemma trimStart_split s :
  ∃ ws, s = ws +:+ Js.trimStart s ∧ Js.all Js.isSpace ws = true.
Proof.
  induction s as [|a s (ws & Hs & Hws)]; simpl.
  - by exists "".
  - destruct (Js.isSpace a) eqn:Ha.
    + exists (String a ws). rewrite ?app_cons, <- Hs. simpl.
      by rewrite Ha, Hws.
    + by exists "".
Qed.

Lemma trimStart_head s c r : Js.trimStart s = String c r → Js.isSpace c = false.
Proof.
  induction s as [|a s IH]; simpl; [done|].
  destruct (Js.isSpace a) eqn:Ha; [done|]. by intros [= <- _].
Qed.

Lemma trimEnd_split s :
  ∃ ws, s = Js.trimEnd s +:+ ws ∧ Js.all Js.isSpace ws = true.
Proof.
  induction s as [|a s (ws & Hs & Hws)]; simpl.
  - by exists "".
  - destruct (Js.trimEnd s) as [|b t] eqn:Ht.
    + rewrite ?app_empty_l in Hs. subst ws.
      destruct (Js.isSpace a) eqn:Ha.
      * exists (String a s). simpl. by rewrite Ha, Hws.
      * exists s. by rewrite ?app_cons.
    + exists ws. rewrite app_cons. by rewrite <- Hs.
Qed.

Lemma trimEnd_last s r c : Js.trimEnd s = r +:+ String c "" → Js.isSpace c = false.
Proof.
  revert r. induction s as [|a s IH]; simpl; intros r.
  - by destruct r.
  - destruct (Js.trimEnd s) as [|b t] eqn:Ht.
    + destruct (Js.isSpace a) eqn:Ha; [by destruct r|].
      destruct r as [|x [|y r]]; [by intros [= <-]|done|done].
    + destruct r as [|x r]; [done|].
      rewrite ?app_cons. intros [= _ Hr]. by eapply IH.
Qed.

Lemma trimEnd_head s c r :
  Js.trimEnd s = String c r → ∃ r', s = String c r'.
Proof.
  destruct s as [|a s]; simpl; [done|].
  destruct (Js.trimEnd s); [destruct (Js.isSpace a)|];
    intros [= <- _] || done; eauto.
Qed.

(** [trim] removes white space, and only white space, from both ends. *)
Lemma trim_spec s :
  (∃ before after,
      s = before +:+ Js.trim s +:+ after
      ∧ Js.all Js.isSpace before = true ∧ Js.all Js.isSpace after = true)
  ∧ (∀ c r, Js.trim s = String c r → Js.isSpace c = false)
  ∧ (∀ r c, Js.trim s = r +:+ String c "" → Js.isSpace c = false).
Proof.
  unfold Js.trim. split; [|split].
  - destruct (trimStart_split s) as (b & Hb & Hbs).
    destruct (trimEnd_split (Js.trimStart s)) as (a & Ha & Has).
    exists b, a. by rewrite <- Ha, <- Hb.
  - intros c r H. destruct (trimEnd_head _ _ _ H) as [r' Hr'].
    by eapply trimStart_head.
  - intros r c H. by eapply trimEnd_last.
Qed.

(** *** [toUpperCase] *)

Lemma upper_upper c : Js.upper (Js.upper c) = Js.upper c.
Proof. by destruct c as [[] [] [] [] [] [] [] []]. Qed.

Lemma upper_isSpace c : Js.isSpace (Js.upper c) = Js.isSpace c.
Proof. by destruct c as [[] [] [] [] [] [] [] []]. Qed.

Lemma toUpperCase_idem s : Js.toUpperCase (Js.toUpperCase s) = Js.toUpperCase s.
Proof. induction s as [|c s IH]; simpl; [done|]. by rewrite upper_upper, IH. Qed.

Lemma toUpperCase_trimStart s :
  Js.toUpperCase (Js.trimStart s) = Js.trimStart (Js.toUpperCase s).
Proof.
  induction s as [|c s IH]; simpl; [done|]. rewrite upper_isSpace.
  by destruct (Js.isSpace c).
Qed.

Lemma toUpperCase_trimEnd s :
  Js.toUpperCase (Js.trimEnd s) = Js.trimEnd (Js.toUpperCase s).
Proof.
  induction s as [|c s IH]; simpl; [done|]. rewrite <- IH, upper_isSpace.
  destruct (Js.trimEnd s); simpl; [by destruct (Js.isSpace c)|done].
Qed.

Lemma toUpperCase_trim s :
  Js.toUpperCase (Js.trim s) = Js.trim (Js.toUpperCase s).
Proof. unfold Js.trim. by rewrite toUpperCase_trimEnd, toUpperCase_trimStart. Qed.

(** *** Prefixes *)

Lemma stripPrefix_sameChar p s r :
  Js.stripPrefix Js.sameChar p s = Some r → s = p +:+ r.
Proof.
  revert s. induction p as [|a p IH]; intros [|b s]; simpl; try done.
  - by intros [= <-].
  - by intros [= <-].
  - destruct (Js.sameChar a b) eqn:Hab; [|done].
    apply sameChar_true in Hab as ->. intros H.
    by rewrite app_cons, (IH _ H).
Qed.

Lemma stripPrefix_app p r : Js.stripPrefix Js.sameChar p (p +:+ r) = Some r.
Proof.
  induction p as [|a p IH]; [by destruct r|].
  rewrite ?app_cons; simpl. by rewrite sameChar_refl.
Qed.

Lemma span_spec f s :
  s = (Js.span f s).1 +:+ (Js.span f s).2
  ∧ Js.all f (Js.span f s).1 = true
  ∧ (∀ c r, (Js.span f s).2 = String c r → f c = false).
Proof.
  induction s as [|a s (IH1 & IH2 & IH3)]; simpl; [done|].
  destruct (f a) eqn:Ha.
  - destruct (Js.span f s) as [x y]; simpl in *.
    rewrite ?app_cons, <- IH1, Ha. done.
  - simpl. split_and!; [done..|]. by intros c r [= <- _].
Qed.

End StringFacts.

(** ** The vocabulary and the string primitives *)

Section VocabularyFacts.
Implicit Types (s : string) (c : ascii).

Lemma isSpace_blank c : Js.isSpace c = blank c.
Proof. by destruct c as [[] [] [] [] [] [] [] []]. Qed.

Lemma upper_capital c : Js.upper c = capital c.
Proof. by destruct c as [[] [] [] [] [] [] [] []]. Qed.

Lemma isHexOrColon_hex_or_colon c : isHexOrColon c = hex_or_colon c.
Proof. by destruct c as [[] [] [] [] [] [] [] []]. Qed.

Lemma all_forallb (f : ascii → bool) s :
  Js.all f s = forallb f (String.list_ascii_of_string s).
Proof. induction s as [|c s IH]; simpl; [done|]. by rewrite IH. Qed.

Lemma all_ext (f g : ascii → bool) s :
  (∀ c, f c = g c) → Js.all f s = Js.all g s.
Proof. intros H. induction s as [|c s IH]; simpl; [done|]. by rewrite H, IH. Qed.

Lemma all_isSpace_blanks s : Js.all Js.isSpace s = true ↔ blanks s.
Proof.
  unfold blanks. rewrite <- all_forallb.
  by rewrite (all_ext _ _ s isSpace_blank).
Qed.

Lemma all_isHexOrColon s : Js.all isHexOrColon s = true ↔ hex_or_colons s.
Proof.
  unfold hex_or_colons. rewrite <- all_forallb.
  by rewrite (all_ext _ _ s isHexOrColon_hex_or_colon).
Qed.

Lemma toUpperCase_capitals s : Js.toUpperCase s = capitals s.
Proof.
  unfold capitals. induction s as [|c s IH]; simpl; [done|].
  by rewrite IH, upper_capital.
Qed.

Lemma trim_stripped s : stripped s (Js.trim s).
Proof.
  destruct (trim_spec s) as ((ws1 & ws2 & Heq & H1 & H2) & Hhead & Hlast).
  split; [|split].
  - exists ws1, ws2. by rewrite <- !all_isSpace_blanks.
  - intros c r H. rewrite <- isSpace_blank. by eapply Hhead.
  - intros r c H. rewrite <- isSpace_blank. by eapply Hlast.
Qed.

End VocabularyFacts.

(** ** Header parsing *)

Section Headers.
Implicit Types (k v l : string) (obj : gmap string string).

Lemma parse_line_no_colon obj l : Js.indexOf ":" l = None → parse_line obj l = obj.
Proof. unfold parse_line. by intros ->. Qed.

Lemma parse_line_colon obj k v :
  Js.indexOf ":" k = None →
  parse_line obj (k +:+ String ":" v)
  = <[Js.toUpperCase (Js.trim k) := Js.trim v]> obj.
Proof.
  intros Hk. unfold parse_line. rewrite (indexOf_first _ _ _ Hk).
  by rewrite substringTo_app, substringFrom_app.
Qed.

Lemma foldl_no_colon obj (ls : list string) :
  Forall (λ l, Js.indexOf ":" l = None) ls → foldl parse_line obj ls = obj.
Proof.
  intros H. revert obj. induction H as [|l ls Hl _ IH]; intros obj; [done|].
  simpl. by rewrite parse_line_no_colon.
Qed.

Lemma parse_lines_app (ls1 ls2 : list string) :
  parse_lines (ls1 ++ ls2) = foldl parse_line (parse_lines ls1) ls2.
Proof. unfold parse_lines. apply foldl_app. Qed.

Lemma split_unlines (ls : list string) :
  Forall is_line ls → ls ≠ [] → Js.split LF (unlines ls) = ls.
Proof.
  induction 1 as [|l ls Hl Hls IH]; [done|]. intros _.
  destruct ls as [|l' ls]; simpl.
  - by apply split_one.
  - rewrite (split_app _ _ _ Hl). f_equal. by apply IH.
Qed.

Lemma parse_headers_unlines (ls : list string) :
  Forall is_line ls → parse_headers (unlines ls) = parse_lines ls.
Proof.
  intros Hls. unfold parse_headers. destruct ls as [|l ls]; [done|].
  by rewrite split_unlines.
Qed.

Lemma indexOf_toUpperCase c s :
  (∀ a, Js.upper a = c ↔ a = c) →
  Js.indexOf c (Js.toUpperCase s) = Js.indexOf c s.
Proof.
  intros Hc. induction s as [|a s IH]; simpl; [done|]. rewrite IH.
  destruct (Js.sameChar a c) eqn:Ha.
  - apply sameChar_true in Ha. destruct (Hc a) as [_ Hc2].
    by rewrite (Hc2 Ha), sameChar_refl.
  - apply sameChar_false in Ha.
    destruct (Js.sameChar (Js.upper a) c) eqn:Hu; [|done].
    apply sameChar_true in Hu. destruct (Hc a) as [Hc1 _]. by apply Hc1 in Hu.
Qed.

Lemma upper_colon a : Js.upper a = ":"%char ↔ a = ":"%char.
Proof. destruct a as [[] [] [] [] [] [] [] []]; vm_compute; split; congruence. Qed.

Lemma upper_LF a : Js.upper a = LF ↔ a = LF.
Proof. destruct a as [[] [] [] [] [] [] [] []]; vm_compute; split; congruence. Qed.

Lemma same_case_indexOf c k k' :
  (∀ a, Js.upper a = c ↔ a = c) →
  Js.toUpperCase k' = Js.toUpperCase k →
  Js.indexOf c k' = Js.indexOf c k.
Proof.
  intros Hc Hk.
  by rewrite <- (indexOf_toUpperCase c k'), Hk, indexOf_toUpperCase.
Qed.

End Headers.

(** C8.  In a header block of ASCII text, a line [k:v] whose [k] has no
    colon is split at that first colon and stores, under the capitals of
    [k] without the white space at its two ends, the value [v] without
    the white space at its two ends, the lines before and after it being
    parsed as without it; that key is in capitals; when no later line has
    a colon the headers give that value for that key; the same line with
    a key that differs from [k] only in letter case parses to the same
    headers; and a line without a colon in the same place leaves the
    headers as they are without it. *)
Theorem C8_header_parsing (before after : list string) (k v : string) :
  Forall is_ascii before → Forall is_ascii after →
  is_ascii k → is_ascii v →
  Forall is_line before → Forall is_line after →
  is_line k → is_line v → Js.indexOf ":" k = None →
  let block (middle : list string) := unlines (before ++ middle ++ after) in
  (∃ name value,
     stripped k name ∧ stripped v value
     ∧ capitals (capitals name) = capitals name
     ∧ parse_headers (block [k +:+ String ":" v])
       = foldl parse_line
           (<[capitals name := value]> (parse_lines before)) after
     ∧ (Forall (λ l, Js.indexOf ":" l = None) after →
        parse_headers (block [k +:+ String ":" v]) !! capitals name
        = Some value))
  ∧ (∀ k', is_ascii k' → capitals k' = capitals k →
       parse_headers (block [k' +:+ String ":" v])
       = parse_headers (block [k +:+ String ":" v]))
  ∧ parse_headers (block [k]) = parse_headers (block []).
Proof.
  intros _ _ _ _ Hb Ha Hk Hv Hcolon block.
  assert (Hline : ∀ k', is_line k' → is_line (k' +:+ String ":" v)).
  { intros k' Hk'. unfold is_line in *.
    apply indexOf_None_app; [done|]. simpl. by rewrite Hv. }
  assert (Hparse : ∀ k', is_line k' → Js.indexOf ":" k' = None →
    parse_headers (block [k' +:+ String ":" v])
    = foldl parse_line
        (<[Js.toUpperCase (Js.trim k') := Js.trim v]> (parse_lines before))
        after).
  { intros k' Hk' Hc'. unfold block.
    rewrite parse_headers_unlines.
    - rewrite !parse_lines_app. simpl. by rewrite parse_line_colon.
    - rewrite !Forall_app. split_and!; [done| |done].
      apply Forall_singleton. by apply Hline. }
  split; [|split].
  - exists (Js.trim k), (Js.trim v).
    rewrite <- !toUpperCase_capitals.
    split; [apply trim_stripped|]. split; [apply trim_stripped|].
    split; [apply toUpperCase_idem|]. split; [by apply Hparse|].
    intros Hafter. rewrite Hparse by done.
    rewrite foldl_no_colon by done. by rewrite lookup_insert_eq.
  - intros k' _ Hsame. rewrite <- !toUpperCase_capitals in Hsame.
    rewrite !Hparse; try done.
    + by rewrite !toUpperCase_trim, Hsame.
    + unfold is_line. rewrite <- Hk. apply same_case_indexOf; [apply upper_LF|done].
    + rewrite <- Hcolon. apply same_case_indexOf; [apply upper_colon|done].
  - unfold block. rewrite !parse_headers_unlines.
    + rewrite !parse_lines_app. simpl. by rewrite parse_line_no_colon.
    + rewrite !Forall_app. by split_and!.
    + rewrite !Forall_app. split_and!; [done| |done]. by apply Forall_singleton.
Qed.

(** A block of three lines whose second one has a lower-case key followed
    by a space, and a value that holds colons and ends in a carriage
    return. *)
Lemma C8_header_parsing_witness :
  parse_headers
    (unlines (["HTTP/1.1 200 OK" +:+ String CR ""]
              ++ ["location " +:+ String ":" (" http://10.0.0.2:7676/dd.xml" +:+ String CR "")]
              ++ ["ST: urn:dial-multiscreen-org:service:dial:1"]))
  = parse_headers
      (unlines (["HTTP/1.1 200 OK" +:+ String CR ""]
                ++ ["LOCATION " +:+ String ":" (" http://10.0.0.2:7676/dd.xml" +:+ String CR "")]
                ++ ["ST: urn:dial-multiscreen-org:service:dial:1"])).
Proof.
  pose proof (C8_header_parsing
    ["HTTP/1.1 200 OK" +:+ String CR ""]
    ["ST: urn:dial-multiscreen-org:service:dial:1"]
    "LOCATION " (" http://10.0.0.2:7676/dd.xml" +:+ String CR "")) as H.
  destruct H as (_ & H & _).
  - repeat constructor.
  - repeat constructor.
  - reflexivity.
  - reflexivity.
  - repeat constructor.
  - repeat constructor.
  - reflexivity.
  - reflexivity.
  - reflexivity.
  - apply H; reflexivity.
Defined.

(** ** The discovery handler *)

Section Handler.
Implicit Types (f : fetched) (response address : string).
Implicit Types (ds : list DeviceInfo).

Lemma on_message_ignored f response address ds :
  Js.includes "Samsung" response = false →
  on_message f response address ds = ds.
Proof. unfold on_message. by intros ->. Qed.

Lemma on_message_accepted f response address ds :
  Js.includes "Samsung" response = true →
  on_message f response address ds
  = ds ++ [mkDevice (resolve_name (parse_headers response) address f)
                    address
                    (default sentinel_mac (macMatch response))].
Proof.
  unfold on_message. intros ->. by destruct (macMatch response).
Qed.

(** A failed fetch leaves the name at the address of the responder. *)
Lemma resolve_name_fetch_throws (obj : gmap string string) address :
  resolve_name obj address FetchThrows = Some address.
Proof.
  unfold resolve_name. destruct (obj !! "LOCATION") as [loc|]; [|done].
  by destruct (Js.truthy loc).
Qed.

(** Without a usable LOCATION header nothing is fetched. *)
Lemma resolve_name_no_location (obj : gmap string string) address f :
  obj !! "LOCATION" = None ∨ obj !! "LOCATION" = Some "" →
  resolve_name obj address f = Some address.
Proof. unfold resolve_name. by intros [-> | ->]. Qed.

(** With one, the name is whatever the expression of line 80 yields. *)
Lemma resolve_name_fetched (obj : gmap string string) address loc result :
  obj !! "LOCATION" = Some loc → loc ≠ "" →
  resolve_name obj address (FetchText result) = first_friendlyName result.
Proof.
  unfold resolve_name, Js.truthy. intros -> Hloc.
  by rewrite bool_decide_eq_false_2.
Qed.

(** *** The WAKEUP pattern *)

Lemma mac_at_sound s m :
  mac_at s = Some m →
  ∃ ws post,
    s = "WAKEUP:" +:+ ws +:+ "MAC=" +:+ m +:+ post
    ∧ Js.all Js.isSpace ws = true
    ∧ m ≠ "" ∧ Js.all isHexOrColon m = true
    ∧ (∀ c r, post = String c r → isHexOrColon c = false).
Proof.
  unfold mac_at.
  destruct (Js.stripPrefix Js.sameChar "WAKEUP:" s) as [r1|] eqn:H1; [|done].
  destruct (Js.stripPrefix Js.sameChar "MAC=" (Js.trimStart r1))
    as [r2|] eqn:H2; [|done].
  destruct (span_spec isHexOrColon r2) as (Hr2 & Hall & Hmax).
  destruct (Js.span isHexOrColon r2) as [x post]; cbn [fst snd] in *.
  destruct x as [|c x]; [done|]. intros [= <-].
  destruct (trimStart_split r1) as (ws & Hws & Hspace).
  apply stripPrefix_sameChar in H1, H2.
  exists ws, post. split_and!; [|done..].
  by rewrite H1, Hws, H2, Hr2.
Qed.

Lemma mac_at_startsWith s :
  is_Some (mac_at s) → Js.startsWith "WAKEUP:" s = true.
Proof.
  unfold mac_at, Js.startsWith.
  destruct (Js.stripPrefix Js.sameChar "WAKEUP:" s); [|by intros [? ?]].
  intros _. by apply bool_decide_eq_true.
Qed.

Lemma macMatch_includes response :
  is_Some (macMatch response) → Js.includes "WAKEUP:" response = true.
Proof.
  induction response as [|a s IH].
  - by intros [? ?].
  - intros H. cbn [macMatch] in H. cbn [Js.includes].
    destruct (mac_at (String a s)) eqn:Hat.
    + by rewrite mac_at_startsWith.
    + rewrite IH; [|done]. by destruct (Js.startsWith "WAKEUP:" (String a s)).
Qed.

Lemma trimStart_app_nonspace ws c r :
  Js.all Js.isSpace ws = true → Js.isSpace c = false →
  Js.trimStart (ws +:+ String c r) = String c r.
Proof.
  induction ws as [|a ws IH]; simpl; intros Hws Hc.
  - by rewrite Hc.
  - apply andb_true_iff in Hws as [-> Hws]. by apply IH.
Qed.

Lemma span_head_nonempty fn c r : fn c = true → (Js.span fn (String c r)).1 ≠ "".
Proof. simpl. intros ->. by destruct (Js.span fn r). Qed.

Lemma mac_at_complete ws c rest :
  Js.all Js.isSpace ws = true → isHexOrColon c = true →
  is_Some (mac_at ("WAKEUP:" +:+ ws +:+ "MAC=" +:+ String c rest)).
Proof.
  intros Hws Hc. unfold mac_at. rewrite stripPrefix_app.
  change ("MAC=" +:+ String c rest) with (String "M" ("AC=" +:+ String c rest)).
  rewrite trimStart_app_nonspace; [|done..].
  change (String "M" ("AC=" +:+ String c rest)) with ("MAC=" +:+ String c rest).
  rewrite stripPrefix_app.
  pose proof (span_head_nonempty isHexOrColon c rest Hc) as Hne.
  by destruct (Js.span isHexOrColon (String c rest)).1.
Qed.

(** A match of [macMatch] is a token of the reply, and the leftmost one. *)
Lemma macMatch_sound response m :
  macMatch response = Some m →
  ∃ pre ws post,
    response = pre +:+ "WAKEUP:" +:+ ws +:+ "MAC=" +:+ m +:+ post
    ∧ Js.all Js.isSpace ws = true
    ∧ m ≠ "" ∧ Js.all isHexOrColon m = true
    ∧ (∀ c r, post = String c r → isHexOrColon c = false)
    ∧ (∀ pre' ws' c rest,
         response
         = pre' +:+ "WAKEUP:" +:+ ws' +:+ "MAC=" +:+ String c rest →
         Js.all Js.isSpace ws' = true → isHexOrColon c = true →
         String.length pre ≤ String.length pre').
Proof.
  induction response as [|a s IH].
  - by vm_compute.
  - cbn [macMatch]. destruct (mac_at (String a s)) as [m'|] eqn:Hat.
    + intros [= ->].
      destruct (mac_at_sound _ _ Hat) as (ws & post & H1 & H2 & H3 & H4 & H5).
      exists "", ws, post. split_and!; try done. simpl. lia.
    + intros (pre & ws & post & -> & H2 & H3 & H4 & H5 & Hleft)%IH.
      exists (String a pre), ws, post. split_and!; try done.
      intros [|b pre'] ws' c rest Heq Hws' Hc.
      * rewrite app_empty_l in Heq.
        destruct (mac_at_complete ws' c rest Hws' Hc) as [x Hx].
        rewrite <- Heq in Hx. congruence.
      * rewrite app_cons in Heq. injection Heq as _ Heq.
        specialize (Hleft _ _ _ _ Heq Hws' Hc). simpl. lia.
Qed.

Lemma macMatch_complete pre ws c rest :
  Js.all Js.isSpace ws = true → isHexOrColon c = true →
  is_Some (macMatch (pre +:+ "WAKEUP:" +:+ ws +:+ "MAC=" +:+ String c rest)).
Proof.
  intros Hws Hc. induction pre as [|a pre IH].
  - rewrite app_empty_l.
    pose proof (mac_at_complete ws c rest Hws Hc) as [m Hm].
    change ("WAKEUP:" +:+ ws +:+ "MAC=" +:+ String c rest)
      with (String "W" ("AKEUP:" +:+ ws +:+ "MAC=" +:+ String c rest)) in *.
    cbn [macMatch]. by rewrite Hm.
  - rewrite app_cons. cbn [macMatch]. by destruct (mac_at _).
Qed.

End Handler.

(** C5.  A datagram whose text does not contain [Samsung] is ignored:
    its handler leaves the list of devices as it is, and the list that
    discovery resolves with is the one it would resolve with had the
    datagram never arrived. *)
Theorem C5_unmarked_reply_ignored (timeMs startTime : Z)
    (f : fetched) (response address : string) (before after : list event) :
  Js.includes "Samsung" response = false →
  (∀ ds, on_message f response address ds = ds)
  ∧ getSamsungDevices timeMs startTime
      (before ++ Reply f response address :: after)
    = getSamsungDevices timeMs startTime (before ++ after).
Proof.
  intros Hno. split.
  - intros ds. by apply on_message_ignored.
  - unfold getSamsungDevices, run. rewrite !foldl_app. simpl.
    rewrite on_message_ignored by done. by destruct (foldl _ _ before).
Qed.

(** A reply of another brand between two firings of the interval. *)
Lemma C5_unmarked_reply_ignored_witness :
  Js.includes "Samsung" "HTTP/1.1 200 OK LG webOS" = false
  ∧ getSamsungDevices 250 1000
      ([Tick 1025] ++ Reply FetchThrows "HTTP/1.1 200 OK LG webOS" "10.0.0.9"
                   :: [Tick 1250])
    = Some [].
Proof.
  split; [reflexivity|].
  rewrite (proj2 (C5_unmarked_reply_ignored 250 1000 FetchThrows
                    "HTTP/1.1 200 OK LG webOS" "10.0.0.9"
                    [Tick 1025] [Tick 1250] eq_refl)).
  reflexivity.
Defined.

(** C9 (as amended).  The record of an accepted reply of ASCII text
    carries, as its MAC address, the text of the leftmost token of the
    WAKEUP pattern exactly as it stands in the reply: a non-empty run of
    hexadecimal digits and colons that follows [WAKEUP:], white space if
    any and [MAC=], that is not followed by a further such character,
    and that starts no later than any other start of a token in the
    reply.  A reply in which no token starts, in particular one without
    [WAKEUP:], gets the sentinel. *)
Theorem C9_mac_taken_verbatim (f : fetched) (response address : string)
    (ds : list DeviceInfo) :
  is_ascii response →
  Js.includes "Samsung" response = true →
  ∃ d, on_message f response address ds = ds ++ [d]
    ∧ ((∃ pre m,
          wakeup_token response pre m
          ∧ (∀ pre', wakeup_token_starts response pre' →
               String.length pre ≤ String.length pre')
          ∧ mac d = m)
       ∨ ((∀ pre, ¬ wakeup_token_starts response pre)
          ∧ mac d = sentinel_mac))
    ∧ ((∀ pre post, response ≠ pre +:+ "WAKEUP:" +:+ post) →
       mac d = sentinel_mac)
    ∧ (Js.includes "WAKEUP:" response = false → mac d = sentinel_mac).
Proof.
  intros _ Hacc. eexists. split; [by apply on_message_accepted|]. simpl.
  assert (Hnone : macMatch response = None →
                  ∀ pre, ¬ wakeup_token_starts response pre).
  { intros Hm pre (ws & c & rest & -> & Hws & Hc).
    apply all_isSpace_blanks in Hws.
    rewrite <- isHexOrColon_hex_or_colon in Hc.
    destruct (macMatch_complete pre ws c rest Hws Hc) as [m Hm'].
    congruence. }
  split_and!.
  - destruct (macMatch response) as [m|] eqn:Hm.
    + left.
      destruct (macMatch_sound _ _ Hm)
        as (pre & ws & post & Heq & Hws & Hne & Hall & Hpost & Hleft).
      exists pre, m. split_and!; [|intros pre' (ws' & c & rest & Heq' & Hws' & Hc)|done].
      * exists ws, post. split_and!; [done| |done| |].
        -- by apply all_isSpace_blanks.
        -- by apply all_isHexOrColon.
        -- intros c r Hp. rewrite <- isHexOrColon_hex_or_colon. by eapply Hpost.
      * eapply Hleft; [exact Heq'| |].
        -- by apply all_isSpace_blanks.
        -- by rewrite isHexOrColon_hex_or_colon.
    + right. split; [by apply Hnone|done].
  - intros Hno. destruct (macMatch response) as [m|] eqn:Hm; [|done].
    destruct (macMatch_sound _ _ Hm) as (pre & ws & post & Heq & _).
    by destruct (Hno pre (ws +:+ "MAC=" +:+ m +:+ post)).
  - intros Hno. destruct (macMatch response) as [m|] eqn:Hm; [|done].
    rewrite macMatch_includes in Hno; [done|]. by rewrite Hm.
Qed.

(** A reply of ASCII text with a token in mixed letter case and of three
    groups. *)
Lemma C9_mac_taken_verbatim_witness :
  is_ascii ("Server: Samsung" +:+ String LF "WAKEUP: MAC=aa:BB:0c")
  ∧ Js.includes "Samsung"
      ("Server: Samsung" +:+ String LF "WAKEUP: MAC=aa:BB:0c") = true
  ∧ ∃ d, on_message FetchThrows
           ("Server: Samsung" +:+ String LF "WAKEUP: MAC=aa:BB:0c")
           "10.0.0.2" []
         = [] ++ [d]
         ∧ ((∃ pre m,
               wakeup_token
                 ("Server: Samsung" +:+ String LF "WAKEUP: MAC=aa:BB:0c")
                 pre m
               ∧ mac d = m)
            ∨ mac d = sentinel_mac).
Proof.
  split; [reflexivity|]. split; [reflexivity|].
  destruct (C9_mac_taken_verbatim FetchThrows
              ("Server: Samsung" +:+ String LF "WAKEUP: MAC=aa:BB:0c")
              "10.0.0.2" [] eq_refl eq_refl) as (d & Hd & Hmac & _).
  exists d. split; [exact Hd|].
  destruct Hmac as [(pre & m & Htoken & _ & Hm)|[_ Hm]].
  - left. exists pre, m. split; [exact Htoken|exact Hm].
  - right. exact Hm.
Defined.

(** C9, as stated, fails: the MAC address of a record is not brought to
    a colon-separated form. *)
Lemma C9_counterexample :
  Js.includes "Samsung"
    ("Server: Samsung" +:+ String LF "WAKEUP: MAC=aabbccddeeff") = true
  ∧ macMatch ("Server: Samsung" +:+ String LF "WAKEUP: MAC=aabbccddeeff")
    = Some "aabbccddeeff"
  ∧ on_message FetchThrows
      ("Server: Samsung" +:+ String LF "WAKEUP: MAC=aabbccddeeff")
      "10.0.0.2" []
    = [mkDevice (Some "10.0.0.2") "10.0.0.2" "aabbccddeeff"]
  ∧ colon_separated_hex "aabbccddeeff" = false
  ∧ "aabbccddeeff" ≠ sentinel_mac.
Proof. by vm_compute. Qed.

(** C2.  The name of the record is the address of the responder when
    the descriptor fetch fails, for every reply; but for a reply with a
    LOCATION header whose descriptor has no friendlyName element the
    name stored in the record is undefined, not the address. *)
Theorem C2_missing_element_yields_undefined :
  (∀ response address ds,
     Js.includes "Samsung" response = true →
     ∃ d, on_message FetchThrows response address ds = ds ++ [d]
          ∧ friendlyName d = Some address)
  ∧ parse_headers
      ("Server: Samsung" +:+ String LF "LOCATION: http://10.0.0.2/dd.xml")
      !! "LOCATION" = Some "http://10.0.0.2/dd.xml"
  ∧ first_friendlyName "<root><device></device></root>" = None
  ∧ on_message (FetchText "<root><device></device></root>")
      ("Server: Samsung" +:+ String LF "LOCATION: http://10.0.0.2/dd.xml")
      "10.0.0.2" []
    = [mkDevice None "10.0.0.2" sentinel_mac].
Proof.
  split; [|by vm_compute].
  intros response address ds Hacc. eexists.
  split; [by apply on_message_accepted|]. simpl.
  apply resolve_name_fetch_throws.
Qed.

(** ** The discovery probe *)

Section ProbeFacts.
Variables (timeMs startTime : Z).
Implicit Types (st : probe) (evs pre post : list event) (now : Z).

Local Abbreviation step' := (step timeMs startTime).
Local Abbreviation run' := (run timeMs startTime).
Local Abbreviation discover := (getSamsungDevices timeMs startTime).

Lemma run_app pre post : run' (pre ++ post) = foldl step' (run' pre) post.
Proof. unfold run. apply foldl_app. Qed.

Lemma on_tick_resolved st now ds :
  resolved st = Some ds → on_tick timeMs startTime now st = st.
Proof. unfold on_tick. by intros ->. Qed.

Lemma on_tick_pending st now :
  resolved st = None →
  resolved (on_tick timeMs startTime now st)
  = if bool_decide (devices st ≠ [] ∨ (timeMs ≤ now - startTime)%Z)
    then Some (devices st) else None.
Proof.
  unfold on_tick. intros Hp. rewrite Hp.
  destruct (devices st) as [|d ds] eqn:Hd; simpl.
  - destruct (Z.leb_spec timeMs (now - startTime)); simpl.
    + rewrite bool_decide_eq_true_2; [done|by right].
    + rewrite bool_decide_eq_false_2; [done|]. intros [?|?]; [done|lia].
  - done.
Qed.

Lemma on_tick_devices st now :
  devices (on_tick timeMs startTime now st) = devices st.
Proof.
  unfold on_tick. destruct (resolved st); [done|].
  by destruct (_ || _).
Qed.

Lemma resolved_sticky st evs ds :
  resolved st = Some ds → resolved (foldl step' st evs) = Some ds.
Proof.
  revert st. induction evs as [|e evs IH]; intros st Hst; [done|].
  simpl. apply IH. destruct e as [now|f r a|r a]; simpl; [|done..].
  by rewrite (on_tick_resolved _ _ _ Hst).
Qed.

Lemma ticks_keep_devices st evs :
  Forall is_tick evs → devices (foldl step' st evs) = devices st.
Proof.
  intros Hevs. revert st.
  induction Hevs as [|e evs He _ IH]; intros st; [done|].
  simpl. rewrite IH. destruct e; [|done..]. apply on_tick_devices.
Qed.

Lemma ticks_only_resolution st evs ds :
  Forall is_tick evs → resolved st = None → devices st = [] →
  resolved (foldl step' st evs) = Some ds →
  ds = []
  ∧ ∃ pre now post,
      evs = pre ++ Tick now :: post
      ∧ resolved (foldl step' st pre) = None
      ∧ (timeMs ≤ now - startTime)%Z.
Proof.
  intros Hevs. revert st.
  induction Hevs as [|e evs He _ IH]; intros st Hpending Hnone;
    [simpl; congruence|].
  destruct e as [now| |]; [|done..]. simpl.
  pose proof (on_tick_pending st now Hpending) as Htick.
  case_bool_decide as Hcond.
  - rewrite (resolved_sticky _ _ _ Htick). intros [= <-].
    split; [done|]. exists [], now, evs. split_and!; [done..|].
    by destruct Hcond.
  - intros Hres.
    destruct (IH (on_tick timeMs startTime now st))
      as (-> & pre & now' & post & -> & Hpre & Hle).
    + done.
    + by rewrite on_tick_devices.
    + done.
    + split; [done|]. exists (Tick now :: pre), now', post. done.
Qed.

Lemma tick_resolves pre now post :
  discover pre = None →
  devices (run' pre) ≠ [] ∨ (timeMs ≤ now - startTime)%Z →
  discover (pre ++ Tick now :: post) = Some (devices (run' pre)).
Proof.
  unfold getSamsungDevices. intros Hpending Hcond.
  rewrite run_app. simpl. apply resolved_sticky.
  rewrite on_tick_pending by done. by rewrite bool_decide_eq_true_2.
Qed.

Lemma punctual_ticks_S n :
  punctual_ticks startTime (S n)
  = punctual_ticks startTime n
    ++ [Tick (startTime + interval_ms * Z.of_nat (S n))].
Proof. unfold punctual_ticks. by rewrite seq_S, fmap_app. Qed.

Lemma punctual_ticks_are_ticks n : Forall is_tick (punctual_ticks startTime n).
Proof. unfold punctual_ticks. apply Forall_fmap, Forall_forall. done. Qed.

Lemma punctual_zero_replies n :
  discover (punctual_ticks startTime n)
  = if (0 <? n)%nat && (timeMs <=? interval_ms * Z.of_nat n)%Z
    then Some [] else None.
Proof.
  unfold getSamsungDevices. induction n as [|n IH]; [done|].
  rewrite punctual_ticks_S, run_app. simpl.
  pose proof (ticks_keep_devices (mkProbe [] None) _
                (punctual_ticks_are_ticks n)) as Hdev. simpl in Hdev.
  fold (run' (punctual_ticks startTime n)) in Hdev.
  destruct (resolved (run' (punctual_ticks startTime n))) as [ds|] eqn:Hres.
  - rewrite (on_tick_resolved _ _ _ Hres), Hres, IH.
    destruct n as [|n]; [done|]. simpl in *.
    destruct (Z.leb_spec timeMs (interval_ms * Z.of_nat (S n))); [|done].
    rewrite (proj2 (Z.leb_le _ _)); [done|]. unfold interval_ms in *. lia.
  - rewrite on_tick_pending by done. rewrite Hdev.
    case_bool_decide as Hcond.
    + rewrite (proj2 (Z.leb_le _ _)); [done|]. destruct Hcond; [done|lia].
    + rewrite (proj2 (Z.leb_gt _ _)); [done|].
      apply Z.nle_gt. intros Hle. apply Hcond. right. lia.
Qed.

(** C7 (as amended).  While the promise is pending, a firing of the
    interval resolves it exactly when a device has been collected, that
    is when a handler has pushed its record, or [timeMs] has elapsed,
    with the devices collected so far; the completion of a handler never
    resolves it by itself, and the arrival of a reply whose handler is
    still waiting for its descriptor changes nothing; once resolved, its
    value stays.  With no reply the list is empty and the resolving
    firing is one that reads an elapsed time of at least [timeMs], and
    any such firing resolves.  Once a device is collected the next firing
    resolves, whatever the time.  With a punctual 25 ms interval and no
    reply the promise is resolved after [n] firings exactly when [n] is
    positive and [25 * n] has reached [timeMs]. *)
Theorem C7_resolution_timing :
  (∀ pre now, discover pre = None →
     discover (pre ++ [Tick now])
     = if bool_decide (devices (run' pre) ≠ [] ∨ (timeMs ≤ now - startTime)%Z)
       then Some (devices (run' pre)) else None)
  ∧ (∀ pre f response address,
       discover (pre ++ [Reply f response address]) = discover pre)
  ∧ (∀ pre response address post,
       discover (pre ++ Arrives response address :: post)
       = discover (pre ++ post))
  ∧ (∀ pre post ds, discover pre = Some ds → discover (pre ++ post) = Some ds)
  ∧ (∀ evs ds, Forall is_tick evs → discover evs = Some ds →
       ds = []
       ∧ ∃ pre now post,
           evs = pre ++ Tick now :: post
           ∧ discover pre = None ∧ (timeMs ≤ now - startTime)%Z)
  ∧ (∀ pre now post, Forall is_tick pre → (timeMs ≤ now - startTime)%Z →
       discover (pre ++ Tick now :: post) = Some [])
  ∧ (∀ pre now post, discover pre = None → devices (run' pre) ≠ [] →
       discover (pre ++ Tick now :: post) = Some (devices (run' pre)))
  ∧ (∀ n, discover (punctual_ticks startTime n)
          = if (0 <? n)%nat && (timeMs <=? 25 * Z.of_nat n)%Z
            then Some [] else None).
Proof.
  split_and!.
  - intros pre now Hpending. unfold getSamsungDevices in *.
    rewrite run_app. simpl. by apply on_tick_pending.
  - intros pre f response address. unfold getSamsungDevices.
    by rewrite run_app.
  - intros pre response address post. unfold getSamsungDevices.
    by rewrite !run_app.
  - intros pre post ds Hres. unfold getSamsungDevices in *.
    rewrite run_app. by apply resolved_sticky.
  - intros evs ds Hevs Hres. by eapply ticks_only_resolution.
  - intros pre now post Hpre Hle.
    pose proof (ticks_keep_devices (mkProbe [] None) pre Hpre) as Hdev.
    simpl in Hdev. fold (run' pre) in Hdev.
    destruct (discover pre) as [ds|] eqn:Hres.
    + destruct (ticks_only_resolution (mkProbe [] None) pre ds) as [-> _];
        try done.
      unfold getSamsungDevices in *. rewrite run_app.
      by apply resolved_sticky.
    + rewrite tick_resolves; [by rewrite Hdev|done|by right].
  - intros pre now post Hpending Hdev. apply tick_resolves; [done|by left].
  - apply punctual_zero_replies.
Qed.

End ProbeFacts.

(** The default window of 250 ms: nine punctual firings leave the promise
    pending, the tenth resolves it with no device; a device collected
    before the firing at 25 ms is returned by that firing. *)
Lemma C7_resolution_timing_witness :
  getSamsungDevices 250 1000 (punctual_ticks 1000 9) = None
  ∧ getSamsungDevices 250 1000 (punctual_ticks 1000 10) = Some []
  ∧ getSamsungDevices 250 1000
      ([Tick 1000; Reply FetchThrows "Server: Samsung" "10.0.0.2"]
       ++ Tick 1025 :: [])
    = Some [mkDevice (Some "10.0.0.2") "10.0.0.2" sentinel_mac].
Proof.
  destruct (C7_resolution_timing 250 1000)
    as (_ & _ & _ & _ & _ & _ & Hfirst & Hzero).
  split_and!.
  - by rewrite Hzero.
  - by rewrite Hzero.
  - by rewrite Hfirst.
Defined.

(** C7, as stated, fails: a reply that arrives before the window does
    not end the wait while its handler waits for the descriptor.  With
    the default window of 250 ms the promise is still pending after nine
    punctual firings, is resolved by the tenth with no device, and the
    record that the handler pushes afterwards is not returned. *)
Lemma C7_counterexample :
  Js.includes "Samsung"
    ("Server: Samsung" +:+ String LF "LOCATION: http://10.0.0.2/dd.xml")
  = true
  ∧ getSamsungDevices 250 1000
      ([Arrives
          ("Server: Samsung" +:+ String LF "LOCATION: http://10.0.0.2/dd.xml")
          "10.0.0.2"]
       ++ punctual_ticks 1000 9)
    = None
  ∧ getSamsungDevices 250 1000
      ([Arrives
          ("Server: Samsung" +:+ String LF "LOCATION: http://10.0.0.2/dd.xml")
          "10.0.0.2"]
       ++ punctual_ticks 1000 10)
    = Some []
  ∧ getSamsungDevices 250 1000
      ([Arrives
          ("Server: Samsung" +:+ String LF "LOCATION: http://10.0.0.2/dd.xml")
          "10.0.0.2"]
       ++ punctual_ticks 1000 10
       ++ [Reply (FetchText "<friendlyName>TV</friendlyName>")
             ("Server: Samsung" +:+ String LF
              "LOCATION: http://10.0.0.2/dd.xml")
             "10.0.0.2"])
    = Some [].
Proof. by vm_compute. Qed.

(** ** Values written back *)

Section WritingFacts.
Implicit Types (s lexeme : string) (c : ascii) (j : json).












End WritingFacts.

(** ** The merge cache *)

Section MergeFacts.
Implicit Types (m existing : gmap string entry) (fresh : list DeviceInfo).
Implicit Types (d : DeviceInfo) (k : string).

Lemma merge_snoc m fresh d :
  merge m (fresh ++ [d]) = <[mac d := Fresh d]> (merge m fresh).
Proof. unfold merge. by rewrite foldl_app. Qed.

Lemma last_fresh_snoc k fresh d :
  last_fresh k (fresh ++ [d])
  = if decide (mac d = k) then Some d else last_fresh k fresh.
Proof.
  unfold last_fresh. rewrite filter_app, filter_cons, filter_nil.
  destruct (decide (mac d = k)); [apply last_snoc|by rewrite app_nil_r].
Qed.


(** The merged mapping, key by key: the last fresh record with that MAC
    if there is one, the cached entry otherwise. *)
Lemma merge_lookup m fresh k :
  merge m fresh !! k
  = match last_fresh k fresh with
    | Some d => Some (Fresh d)
    | None => m !! k
    end.
Proof.
  induction fresh as [|d fresh IH] using rev_ind; [done|].
  rewrite merge_snoc, last_fresh_snoc, lookup_insert.
  destruct (decide (mac d = k)); [done|]. apply IH.
Qed.

Lemma assign_all_obj m fresh :
  assign_all (Obj m) fresh = Some (Obj (merge m fresh)).
Proof.
  revert m. induction fresh as [|d fresh IH]; intros m; [done|].
  simpl. by rewrite IH.
Qed.



Lemma merge_twice m fresh : merge (merge m fresh) fresh = merge m fresh.
Proof.
  apply map_eq. intros k. rewrite !merge_lookup.
  by destruct (last_fresh k fresh).
Qed.

End MergeFacts.

(** C3.  On a cache that is a mapping, the loop of lines 130-132 is the
    merge; merging no record changes nothing; merging one more record
    stores that whole record under its MAC, over whatever the earlier
    records left there; so every key holds the last fresh record with
    that MAC, in full, or else its cached entry.  Merging the cache
    [{A: {ip: 1}}] with the fresh record of MAC [A] and address [2] gives
    the mapping that holds just that record under [A]. *)
Theorem C3_merge_overwrites (existing : gmap string entry)
    (fresh : list DeviceInfo) :
  assign_all (Obj existing) fresh = Some (Obj (merge existing fresh))
  ∧ merge existing [] = existing
  ∧ (∀ d, merge existing (fresh ++ [d])
          = <[mac d := Fresh d]> (merge existing fresh))
  ∧ (∀ k, merge existing fresh !! k
          = match last_fresh k fresh with
            | Some d => Some (Fresh d)
            | None => existing !! k
            end)
  ∧ (∀ name,
       merge {["A" := Cached (JObject [("ip", JNumber "1")])]}
             [mkDevice name "2" "A"]
       = {["A" := Fresh (mkDevice name "2" "A")]}).
Proof.
  split_and!.
  - apply assign_all_obj.
  - done.
  - intros d. apply merge_snoc.
  - intros k. apply merge_lookup.
  - intros name. unfold merge. simpl. apply insert_singleton_eq.
Qed.

(** C4.  Merging the same fresh list into a cache a second time gives
    the mapping that merging it once gives. *)
Theorem C4_merge_idempotent (existing : gmap string entry)
    (fresh : list DeviceInfo) :
  merge (merge existing fresh) fresh = merge existing fresh.
Proof. apply merge_twice. Qed.




(** ** Loading the cache *)


(** What survives the guard is what [JSON.parse] returned. *)
Lemma load_keeps_objects (text : string) (j : json) :
  Json.parse text = Some j → typeof j = "object" →
  load (Content text)
  = match j with
    | JObject members => Obj (object_of members)
    | JArray items => Arr (Some ∘ Cached <$> items) ∅
    | _ => Null
    end.
Proof.
  intros Hp Hj. unfold load. rewrite Hp.
  rewrite bool_decide_eq_false_2; [done|]. by intros [].
Qed.

(** C1.  An unreadable cache file and the text [not-json{], bare or as a
    JSON string, load as the empty mapping, and the run then writes and
    returns just the discovered record.  A cache file that holds a JSON
    array does not load as the empty mapping: the array passes the guard
    of line 126, the discovered record becomes a property of the array,
    and the array is written back without it.  A cache file that holds
    [null] passes the guard too, and the run ends in an exception. *)
Theorem C1_array_and_null_pass_the_guard :
  let d := mkDevice (Some "tv") "10.0.0.2" "AA:BB:CC:DD:EE:FF" in
  let as_if_empty :=
    mkOutcome (Some (DObject {[mac d := device_json d]})) (Some [Fresh d]) in
  (getCachedSamsungDevices Unreadable [d] = as_if_empty
   ∧ Json.parse "not-json{" = None
   ∧ getCachedSamsungDevices (Content "not-json{") [d] = as_if_empty
   ∧ getCachedSamsungDevices
       (Content (String Json.quote ("not-json{" +:+ String Json.quote ""))) [d]
     = as_if_empty)
  ∧ (Json.parse "[]" = Some (JArray [])
     ∧ load (Content "[]") = Arr [] ∅
     ∧ getCachedSamsungDevices (Content "[]") [d]
       = mkOutcome (Some (DArray [])) (Some [Fresh d]))
  ∧ (Json.parse "null" = Some JNull
     ∧ load (Content "null") = Null
     ∧ getCachedSamsungDevices (Content "null") [d] = mkOutcome None None
     ∧ getCachedSamsungDevices (Content "null") []
       = mkOutcome (Some DNull) None).
Proof. vm_compute. repeat split. Qed.

(** ** The key loop *)

Lemma switch_unlisted (key : string) (cases : list (string * turn)) :
  key ∉ cases.*1 → switch key cases = unmapped.
Proof.
  induction cases as [|[label body] cases IH]; [done|].
  rewrite fmap_cons, not_elem_of_cons. intros [Hne Hrest]. simpl in *.
  rewrite bool_decide_eq_false_2 by done. by apply IH.
Qed.

Lemma substringTo_split (n : nat) (buffer : string) :
  n ≤ String.length buffer →
  ∃ rest, buffer = Js.substringTo n buffer +:+ rest
          ∧ String.length (Js.substringTo n buffer) = n.
Proof.
  revert buffer. induction n as [|n IH]; intros buffer Hn.
  - exists buffer. by destruct buffer.
  - destruct buffer as [|c buffer]; simpl in Hn; [lia|].
    destruct (IH buffer) as (rest & Heq & Hlen); [lia|].
    exists rest. simpl. rewrite app_cons, <- Heq. by rewrite Hlen.
Qed.

Lemma removeNul_filter (s : string) :
  removeNul s
  = String.string_of_list_ascii
      (List.filter (λ c, negb (Ascii.eqb c "000"))
                   (String.list_ascii_of_string s)).
Proof.
  induction s as [|c s IH]; [done|]. simpl. rewrite IH.
  destruct (Ascii.eqb_spec c "000") as [->|Hne]; simpl; [done|].
  by rewrite bool_decide_eq_false_2.
Qed.

(** C6.  The frames ESC [ A, ESC [ B, ESC [ C and ESC [ D send up, down,
    right and left; a read that returns the single byte ESC sends home;
    [q] sends the power key and exits; [z] is unmapped and makes no call
    on the remote.  Each digit sends its own key; DEL sends back, CR
    enter, [p] play, [+] and [-] volume up and down, [w] and [s] channel
    up and down; ETX and [f] exit without a call.  The key of a turn is
    made of the bytes read without their NUL bytes, and a key that is
    none of these twenty-five makes no call and does not exit. *)
Theorem C6_decoder_exact :
  main_turn (String "027" "[A") 3 = mkTurn [sendKey KEY_UP] false
  ∧ main_turn (String "027" "[B") 3 = mkTurn [sendKey KEY_DOWN] false
  ∧ main_turn (String "027" "[C") 3 = mkTurn [sendKey KEY_RIGHT] false
  ∧ main_turn (String "027" "[D") 3 = mkTurn [sendKey KEY_LEFT] false
  ∧ main_turn (String "027" (String "000" (String "000" ""))) 1
    = mkTurn [sendKey KEY_HOME] false
  ∧ main_turn "q" 1 = mkTurn [sendKeys [KEY_POWER]] true
  ∧ main_turn "z" 1 = mkTurn [] false
  ∧ (main_turn "0" 1 = mkTurn [sendKey KEY_0] false
     ∧ main_turn "1" 1 = mkTurn [sendKey KEY_1] false
     ∧ main_turn "2" 1 = mkTurn [sendKey KEY_2] false
     ∧ main_turn "3" 1 = mkTurn [sendKey KEY_3] false
     ∧ main_turn "4" 1 = mkTurn [sendKey KEY_4] false
     ∧ main_turn "5" 1 = mkTurn [sendKey KEY_5] false
     ∧ main_turn "6" 1 = mkTurn [sendKey KEY_6] false
     ∧ main_turn "7" 1 = mkTurn [sendKey KEY_7] false
     ∧ main_turn "8" 1 = mkTurn [sendKey KEY_8] false
     ∧ main_turn "9" 1 = mkTurn [sendKey KEY_9] false)
  ∧ (main_turn (String "127" "") 1 = mkTurn [sendKey KEY_BACK_MHP] false
     ∧ main_turn (String "013" "") 1 = mkTurn [sendKey KEY_ENTER] false
     ∧ main_turn "p" 1 = mkTurn [sendKey KEY_PLAY] false
     ∧ main_turn "+" 1 = mkTurn [sendKey KEY_VOLUP] false
     ∧ main_turn "-" 1 = mkTurn [sendKey KEY_VOLDOWN] false
     ∧ main_turn "w" 1 = mkTurn [sendKey KEY_CHUP] false
     ∧ main_turn "s" 1 = mkTurn [sendKey KEY_CHDOWN] false
     ∧ main_turn (String "003" "") 1 = mkTurn [] true
     ∧ main_turn "f" 1 = mkTurn [] true)
  ∧ (main_turn (String "027" "[A") 1 = mkTurn [sendKey KEY_HOME] false
     ∧ main_turn (String "027" "[A") 2 = mkTurn [] false
     ∧ main_turn (String "000" (String "q" (String "000" ""))) 3
       = mkTurn [sendKeys [KEY_POWER]] true
     ∧ main_turn (String "000" (String "000" (String "000" ""))) 3
       = mkTurn [] false
     ∧ main_turn "qqq" 0 = mkTurn [] false)
  ∧ (∀ buffer bytesRead, bytesRead ≤ String.length buffer →
       ∃ bytes rest,
         buffer = bytes +:+ rest
         ∧ String.length bytes = bytesRead
         ∧ main_turn buffer bytesRead
           = dispatch
               (String.string_of_list_ascii
                  (List.filter (λ c, negb (Ascii.eqb c "000"))
                               (String.list_ascii_of_string bytes))))
  ∧ (∀ key,
       key ∉ [ "0"; "1"; "2"; "3"; "4"; "5"; "6"; "7"; "8"; "9";
               String "027" "[A"; String "027" "[B"; String "027" "[C";
               String "027" "[D"; String "127" ""; String "027" "";
               String "013" ""; "p"; "+"; "-"; "w"; "s"; "q";
               String "003" ""; "f" ] →
       dispatch key = mkTurn [] false).
Proof.
  split_and!; try reflexivity.
  - intros buffer bytesRead Hn.
    destruct (substringTo_split bytesRead buffer Hn) as (rest & Heq & Hlen).
    exists (Js.substringTo bytesRead buffer), rest.
    split; [done|]. split; [done|].
    unfold main_turn, read_key. by rewrite removeNul_filter.
  - intros key Hkey. by apply switch_unlisted.
Qed.

(** * Further properties *)

(** ** What discovery returns *)

Section DiscoveryFacts.
Variables (timeMs startTime : Z).
Implicit Types (st : probe) (evs pre post : list event) (now : Z).

Local Abbreviation step' := (step timeMs startTime).
Local Abbreviation run' := (run timeMs startTime).
Local Abbreviation discover := (getSamsungDevices timeMs startTime).

Lemma records_app pre post : records (pre ++ post) = records pre ++ records post.
Proof. unfold records. apply omap_app. Qed.

Lemma records_cons (e : event) evs :
  records (e :: evs)
  = match e with
    | Reply f response address =>
        if Js.includes "Samsung" response
        then record_of f response address :: records evs
        else records evs
    | Tick _ | Arrives _ _ => records evs
    end.
Proof.
  unfold records. simpl. destruct e as [|f response address|]; [done| |done].
  by destruct (Js.includes "Samsung" response).
Qed.

Lemma devices_foldl st evs :
  devices (foldl step' st evs) = devices st ++ records evs.
Proof.
  revert st. induction evs as [|e evs IH]; intros st.
  - by rewrite app_nil_r.
  - cbn [foldl]. rewrite IH, records_cons.
    destruct e as [now|f response address|response address].
    + cbn [step]. by rewrite on_tick_devices.
    + cbn [step devices].
      destruct (Js.includes "Samsung" response) eqn:Hacc.
      * rewrite on_message_accepted by done. by rewrite <- app_assoc.
      * by rewrite on_message_ignored.
    + done.
Qed.

Lemma run_devices evs : devices (run' evs) = records evs.
Proof. unfold run. by rewrite devices_foldl. Qed.

Lemma resolution_point st evs ds :
  resolved st = None → resolved (foldl step' st evs) = Some ds →
  ∃ pre now post,
    evs = pre ++ Tick now :: post
    ∧ resolved (foldl step' st pre) = None
    ∧ ds = devices (foldl step' st pre)
    ∧ (ds ≠ [] ∨ (timeMs ≤ now - startTime)%Z).
Proof.
  revert st. induction evs as [|e evs IH]; intros st Hpending;
    [simpl; congruence|].
  cbn [foldl]. destruct e as [now|f response address|response address].
  - cbn [step]. pose proof (on_tick_pending timeMs startTime st now Hpending) as Htick.
    case_bool_decide as Hcond.
    + rewrite (resolved_sticky _ _ _ _ _ Htick). intros [= <-].
      by exists [], now, evs.
    + intros Hres. destruct (IH _ Htick Hres) as (pre & now' & post & -> & H1 & H2 & H3).
      by exists (Tick now :: pre), now', post.
  - intros Hres.
    destruct (IH (step' st (Reply f response address)) Hpending Hres)
      as (pre & now' & post & -> & H1 & H2 & H3).
    by exists (Reply f response address :: pre), now', post.
  - intros Hres.
    destruct (IH (step' st (Arrives response address)) Hpending Hres)
      as (pre & now' & post & -> & H1 & H2 & H3).
    by exists (Arrives response address :: pre), now', post.
Qed.

End DiscoveryFacts.

(** X1.  The list discovery resolves with is, in order and with
    duplicates kept, one record for each reply that holds [Samsung] and
    whose handler completed before the firing of the interval that
    resolved the promise; that firing is one at which the list is not
    empty or [timeMs] has elapsed. *)
Theorem discovery_returns_records_of_accepted_replies
    (timeMs startTime : Z) (events : list event) (ds : list DeviceInfo) :
  getSamsungDevices timeMs startTime events = Some ds →
  ∃ pre now post,
    events = pre ++ Tick now :: post
    ∧ getSamsungDevices timeMs startTime pre = None
    ∧ ds = records pre
    ∧ (ds ≠ [] ∨ (timeMs ≤ now - startTime)%Z).
Proof.
  unfold getSamsungDevices, run. intros Hres.
  destruct (resolution_point timeMs startTime (mkProbe [] None) _ _ eq_refl Hres)
    as (pre & now & post & H1 & H2 & H3 & H4).
  exists pre, now, post. split_and!; try done.
  rewrite H3. apply run_devices.
Qed.

(** Two identical replies before the first firing give two records. *)
Lemma discovery_returns_records_of_accepted_replies_witness :
  getSamsungDevices 250 1000
    [Reply FetchThrows "Samsung" "10.0.0.2";
     Reply FetchThrows "Samsung" "10.0.0.2"; Tick 1025]
  = Some [mkDevice (Some "10.0.0.2") "10.0.0.2" sentinel_mac;
          mkDevice (Some "10.0.0.2") "10.0.0.2" sentinel_mac]
  ∧ ∃ pre now post,
      [Reply FetchThrows "Samsung" "10.0.0.2";
       Reply FetchThrows "Samsung" "10.0.0.2"; Tick 1025]
      = pre ++ Tick now :: post
      ∧ records pre
        = [mkDevice (Some "10.0.0.2") "10.0.0.2" sentinel_mac;
           mkDevice (Some "10.0.0.2") "10.0.0.2" sentinel_mac].
Proof.
  split; [reflexivity|].
  destruct (discovery_returns_records_of_accepted_replies 250 1000
    [Reply FetchThrows "Samsung" "10.0.0.2";
     Reply FetchThrows "Samsung" "10.0.0.2"; Tick 1025]
    _ eq_refl) as (pre & now & post & H1 & _ & H3 & _).
  exists pre, now, post. split; [exact H1|]. symmetry. exact H3.
Defined.

Section RecordFacts.
Implicit Types (f : fetched) (response address m : string).

Lemma sentinel_is_mac_text : is_mac_text sentinel_mac.
Proof. by split. Qed.

Lemma record_mac_text f response address :
  is_mac_text (mac (record_of f response address)).
Proof.
  unfold record_of. cbn [mac].
  destruct (macMatch response) as [m|] eqn:Hm; [|apply sentinel_is_mac_text].
  destruct (macMatch_sound _ _ Hm) as (? & ? & ? & _ & _ & H1 & H2 & _).
  by split.
Qed.

Lemma elem_of_records (d : DeviceInfo) (evs : list event) :
  d ∈ records evs →
  ∃ f response address,
    Reply f response address ∈ evs
    ∧ Js.includes "Samsung" response = true
    ∧ d = record_of f response address.
Proof.
  unfold records. rewrite list_elem_of_omap.
  intros ([now|f response address|] & Hin & Hd); [done| |done].
  destruct (Js.includes "Samsung" response) eqn:Hacc; [|done].
  injection Hd as <-. by exists f, response, address.
Qed.

Lemma mac_text_not_length m : is_mac_text m → m ≠ "length".
Proof. intros [_ Hall] ->. by vm_compute in Hall. Qed.

End RecordFacts.

Lemma discovered_from_reply (timeMs startTime : Z) (events : list event)
    (ds : list DeviceInfo) (d : DeviceInfo) :
  getSamsungDevices timeMs startTime events = Some ds → d ∈ ds →
  ∃ f response address,
    Reply f response address ∈ events
    ∧ Js.includes "Samsung" response = true
    ∧ d = record_of f response address.
Proof.
  intros Hres Hd.
  unfold getSamsungDevices, run in Hres.
  destruct (resolution_point timeMs startTime (mkProbe [] None) _ _ eq_refl Hres)
    as (pre & now & post & -> & _ & -> & _).
  fold (run timeMs startTime pre) in Hd. rewrite run_devices in Hd.
  destruct (elem_of_records _ _ Hd) as (f & response & address & Hin & H).
  exists f, response, address. split; [|done]. apply elem_of_app. by left.
Qed.

(** X2.  Every record that discovery returns comes from a reply with
    [Samsung] in its text, has the source address of that reply as its
    [ip], and has as its [mac] a non-empty text of hexadecimal digits and
    colons. *)
Theorem discovered_record_invariant (timeMs startTime : Z)
    (events : list event) (ds : list DeviceInfo) (d : DeviceInfo) :
  getSamsungDevices timeMs startTime events = Some ds → d ∈ ds →
  is_mac_text (mac d)
  ∧ ∃ f response,
      Reply f response (ip d) ∈ events
      ∧ Js.includes "Samsung" response = true.
Proof.
  intros Hres Hd.
  destruct (discovered_from_reply _ _ _ _ _ Hres Hd)
    as (f & response & address & Hin & Hacc & ->).
  split; [apply record_mac_text|]. by exists f, response.
Qed.

(** A reply whose token is cut short still gives a text of that kind. *)
Lemma discovered_record_invariant_witness :
  is_mac_text "AB:1"
  ∧ ∃ f response,
      Reply f response "10.0.0.7"
      ∈ [Reply FetchThrows "Samsung WAKEUP:MAC=AB:1;x" "10.0.0.7"; Tick 1025]
      ∧ Js.includes "Samsung" response = true.
Proof.
  refine (discovered_record_invariant 250 1000
    [Reply FetchThrows "Samsung WAKEUP:MAC=AB:1;x" "10.0.0.7"; Tick 1025]
    [mkDevice (Some "10.0.0.7") "10.0.0.7" "AB:1"]
    (mkDevice (Some "10.0.0.7") "10.0.0.7" "AB:1") _ _).
  - reflexivity.
  - apply list_elem_of_singleton. reflexivity.
Defined.

(** ** The name in the descriptor *)

Section NameFacts.
Implicit Types (s r p o g name pre post : string) (a b : ascii).

Lemma stripPrefix_ignoreCase_sound p s r :
  Js.stripPrefix Js.sameCharIgnoreCase p s = Some r →
  ∃ o, s = o +:+ r ∧ Js.toUpperCase o = Js.toUpperCase p.
Proof.
  revert s. induction p as [|a p IH]; intros [|b s]; simpl; try done.
  - intros [= <-]. by exists "".
  - intros [= <-]. by exists "".
  - unfold Js.sameCharIgnoreCase. case_bool_decide as Hab; [|done].
    intros (o & -> & Ho)%IH. exists (String b o). simpl.
    by rewrite Ho, Hab.
Qed.

Lemma stripPrefix_ignoreCase_app p o r :
  Js.toUpperCase o = Js.toUpperCase p →
  Js.stripPrefix Js.sameCharIgnoreCase p (o +:+ r) = Some r.
Proof.
  revert o. induction p as [|a p IH]; intros [|b o]; simpl; try done.
  intros [= Hab Ho]. unfold Js.sameCharIgnoreCase.
  rewrite bool_decide_eq_true_2 by done. by apply IH.
Qed.

Lemma stripPrefix_ignoreCase_head p a s b r :
  Js.stripPrefix Js.sameCharIgnoreCase (String a p) (String b s) = Some r →
  Js.upper a = Js.upper b.
Proof.
  simpl. unfold Js.sameCharIgnoreCase. by case_bool_decide.
Qed.

Lemma stripPrefix_ignoreCase_head2 p a1 a2 s b1 b2 r :
  Js.stripPrefix Js.sameCharIgnoreCase
    (String a1 (String a2 p)) (String b1 (String b2 s)) = Some r →
  Js.upper a1 = Js.upper b1 ∧ Js.upper a2 = Js.upper b2.
Proof.
  simpl. unfold Js.sameCharIgnoreCase.
  case_bool_decide; [|done]. by case_bool_decide.
Qed.

Lemma lazy_until_close_eq s :
  lazy_until_close s
  = match Js.stripPrefix Js.sameCharIgnoreCase "</friendlyName>" s with
    | Some _ => Some ""
    | None =>
        match s with
        | "" => None
        | String c r =>
            if isLineTerminator c then None
            else String c <$> lazy_until_close r
        end
    end.
Proof. by destruct s. Qed.

Lemma first_friendlyName_eq s :
  first_friendlyName s
  = match friendlyName_at s with
    | Some g => Some g
    | None =>
        match s with
        | "" => None
        | String _ r => first_friendlyName r
        end
    end.
Proof. by destruct s. Qed.

Lemma lazy_until_close_sound s g :
  lazy_until_close s = Some g →
  ∃ c post,
    s = g +:+ c +:+ post
    ∧ Js.toUpperCase c = "</FRIENDLYNAME>"
    ∧ Js.all (λ x, negb (isLineTerminator x)) g = true.
Proof.
  revert g. induction s as [|a s IH]; intros g; rewrite lazy_until_close_eq.
  - done.
  - destruct (Js.stripPrefix _ _ (String a s)) as [post|] eqn:Hclose.
    + intros [= <-].
      destruct (stripPrefix_ignoreCase_sound _ _ _ Hclose) as (c & Hs & Hc).
      by exists c, post.
    + destruct (isLineTerminator a) eqn:Ha; [done|].
      destruct (lazy_until_close s) as [g'|] eqn:Hg; [|done].
      intros [= <-]. destruct (IH _ eq_refl) as (c & post & -> & Hc & Hall).
      exists c, post. simpl. by rewrite Ha.
Qed.

Lemma first_friendlyName_sound s g :
  first_friendlyName s = Some g →
  ∃ pre o c post,
    s = pre +:+ o +:+ g +:+ c +:+ post
    ∧ Js.toUpperCase o = "<FRIENDLYNAME>"
    ∧ Js.toUpperCase c = "</FRIENDLYNAME>"
    ∧ Js.all (λ x, negb (isLineTerminator x)) g = true.
Proof.
  induction s as [|a s IH]; rewrite first_friendlyName_eq.
  - by vm_compute.
  - destruct (friendlyName_at (String a s)) as [g'|] eqn:Hat.
    + intros [= ->]. unfold friendlyName_at in Hat.
      destruct (Js.stripPrefix _ _ (String a s)) as [rest|] eqn:Hopen; [|done].
      destruct (stripPrefix_ignoreCase_sound _ _ _ Hopen) as (o & Hs & Ho).
      destruct (lazy_until_close_sound _ _ Hat) as (c & post & -> & Hc & Hall).
      by exists "", o, c, post.
    + intros (pre & o & c & post & -> & H)%IH.
      by exists (String a pre), o, c, post.
Qed.

Lemma upper_lt a : Js.upper a = "<"%char ↔ a = "<"%char.
Proof. destruct a as [[] [] [] [] [] [] [] []]; vm_compute; split; congruence. Qed.

Lemma lazy_until_close_found name c post :
  Js.indexOf "<" name = None →
  Js.all (λ x, negb (isLineTerminator x)) name = true →
  Js.toUpperCase c = "</FRIENDLYNAME>" →
  lazy_until_close (name +:+ c +:+ post) = Some name.
Proof.
  intros Hlt Hall Hc. induction name as [|x name IH];
    rewrite lazy_until_close_eq.
  - rewrite app_empty_l. by rewrite stripPrefix_ignoreCase_app.
  - rewrite app_cons. simpl in Hlt, Hall.
    destruct (Js.sameChar x "<") eqn:Hx; [done|].
    apply sameChar_false in Hx.
    apply andb_true_iff in Hall as [Hx' Hall].
    destruct (Js.stripPrefix _ _ (String x _)) as [r|] eqn:Hclose.
    + apply stripPrefix_ignoreCase_head in Hclose.
      exfalso. apply Hx, upper_lt. by rewrite <- Hclose.
    + apply negb_true_iff in Hx'. rewrite Hx', IH; [done| |done].
      by destruct (Js.indexOf "<" name).
Qed.

Lemma friendlyName_at_skips a pre o rest :
  Js.startsWith "<F" (Js.toUpperCase (String a pre)) = false →
  Js.toUpperCase o = "<FRIENDLYNAME>" →
  friendlyName_at (String a (pre +:+ o +:+ rest)) = None.
Proof.
  intros Hstart Ho. unfold friendlyName_at.
  destruct (Js.stripPrefix _ _ (String a _)) as [r|] eqn:Hopen; [|done].
  exfalso. destruct pre as [|b pre].
  - destruct o as [|o1 o]; [done|]. injection Ho as Ho1 _.
    rewrite app_empty_l, app_cons in Hopen.
    apply stripPrefix_ignoreCase_head2 in Hopen as [_ H2].
    rewrite Ho1 in H2. done.
  - rewrite app_cons in Hopen.
    apply stripPrefix_ignoreCase_head2 in Hopen as [H1 H2].
    unfold Js.startsWith in Hstart. simpl in Hstart.
    change (Js.upper "<") with "<"%char in H1.
    change (Js.upper "f") with "F"%char in H2.
    rewrite <- H1, <- H2 in Hstart. done.
Qed.

Lemma first_friendlyName_found pre o name c post :
  Js.includes "<F" (Js.toUpperCase pre) = false →
  Js.toUpperCase o = "<FRIENDLYNAME>" →
  Js.toUpperCase c = "</FRIENDLYNAME>" →
  Js.indexOf "<" name = None →
  Js.all (λ x, negb (isLineTerminator x)) name = true →
  first_friendlyName (pre +:+ o +:+ name +:+ c +:+ post) = Some name.
Proof.
  intros Hpre Ho Hc Hlt Hall. induction pre as [|a pre IH];
    rewrite first_friendlyName_eq.
  - rewrite app_empty_l. unfold friendlyName_at.
    rewrite stripPrefix_ignoreCase_app by done.
    by rewrite lazy_until_close_found.
  - rewrite app_cons. cbn [Js.toUpperCase Js.includes] in Hpre.
    apply orb_false_iff in Hpre as [Hstart Hpre].
    rewrite friendlyName_at_skips; [by apply IH|done|done].
Qed.

End NameFacts.

(** X3.  When the LOCATION header of an accepted reply of ASCII text is
    not empty and the fetched descriptor holds, after a text without
    [<f] or [<F], an element [<friendlyName>name</friendlyName>] whose
    tags are in any letter case and whose content is ASCII text with no
    [<], no line feed and no carriage return, the record pushed for the
    reply has that content as its name. *)
Theorem record_takes_name_from_descriptor
    (response address location pre o name c post : string)
    (ds : list DeviceInfo) :
  is_ascii response → is_ascii name →
  Js.includes "Samsung" response = true →
  parse_headers response !! "LOCATION" = Some location → location ≠ "" →
  Js.includes "<F" (capitals pre) = false →
  capitals o = "<FRIENDLYNAME>" →
  capitals c = "</FRIENDLYNAME>" →
  Js.indexOf "<" name = None →
  Js.indexOf "010" name = None → Js.indexOf "013" name = None →
  ∃ d, on_message (FetchText (pre +:+ o +:+ name +:+ c +:+ post))
         response address ds = ds ++ [d]
       ∧ friendlyName d = Some name ∧ ip d = address.
Proof.
  intros _ _ Hacc Hloc Hne Hpre Ho Hc Hlt Hlf Hcr. eexists.
  split; [by apply on_message_accepted|]. cbn [friendlyName ip].
  split; [|done].
  rewrite (resolve_name_fetched _ _ _ _ Hloc Hne).
  rewrite <- toUpperCase_capitals in Hpre, Ho, Hc.
  apply first_friendlyName_found; try done.
  clear -Hlf Hcr. induction name as [|x name IH]; [done|].
  simpl in Hlf, Hcr. cbn [Js.all].
  destruct (Js.sameChar x "010") eqn:H1; [done|].
  destruct (Js.sameChar x "013") eqn:H2; [done|].
  apply sameChar_false in H1, H2.
  rewrite IH.
  - unfold isLineTerminator.
    by rewrite !bool_decide_eq_false_2.
  - by destruct (Js.indexOf "010" name).
  - by destruct (Js.indexOf "013" name).
Qed.

(** A descriptor with other elements around the name and tags in upper
    case. *)
Lemma record_takes_name_from_descriptor_witness :
  ∃ d, on_message
         (FetchText ("<root><device><deviceType>tv</deviceType>"
                     +:+ "<FRIENDLYNAME>" +:+ "Living Room TV"
                     +:+ "</friendlyname>" +:+ "</device></root>"))
         ("Samsung" +:+ String LF "Location: http://10.0.0.2/dd.xml")
         "10.0.0.2" [] = [] ++ [d]
       ∧ friendlyName d = Some "Living Room TV" ∧ ip d = "10.0.0.2".
Proof.
  apply (record_takes_name_from_descriptor
           ("Samsung" +:+ String LF "Location: http://10.0.0.2/dd.xml")
           "10.0.0.2" "http://10.0.0.2/dd.xml"
           "<root><device><deviceType>tv</deviceType>"
           "<FRIENDLYNAME>" "Living Room TV" "</friendlyname>"
           "</device></root>" []); try reflexivity.
  discriminate.
Defined.

(** X4.  A name that the handler takes from a descriptor stands in the
    descriptor between an opening and a closing friendlyName tag, in any
    letter case, and holds no line break. *)
Theorem name_from_descriptor_is_element_content
    (response address location result name : string)
    (ds : list DeviceInfo) (d : DeviceInfo) :
  parse_headers response !! "LOCATION" = Some location → location ≠ "" →
  on_message (FetchText result) response address ds = ds ++ [d] →
  friendlyName d = Some name →
  ∃ pre o c post,
    result = pre +:+ o +:+ name +:+ c +:+ post
    ∧ Js.toUpperCase o = "<FRIENDLYNAME>"
    ∧ Js.toUpperCase c = "</FRIENDLYNAME>"
    ∧ Js.all (λ x, negb (isLineTerminator x)) name = true.
Proof.
  intros Hloc Hne Hmsg Hname.
  destruct (Js.includes "Samsung" response) eqn:Hacc.
  - rewrite on_message_accepted in Hmsg by done.
    apply app_inv_head in Hmsg. injection Hmsg as <-.
    cbn [friendlyName] in Hname.
    rewrite (resolve_name_fetched _ _ _ _ Hloc Hne) in Hname.
    by apply first_friendlyName_sound.
  - rewrite on_message_ignored in Hmsg by done.
    apply (f_equal length) in Hmsg. rewrite length_app in Hmsg.
    simpl in Hmsg. lia.
Qed.

Lemma name_from_descriptor_is_element_content_witness :
  ∃ pre o c post,
    "<a><friendlyName>TV</friendlyName></a>"
    = pre +:+ o +:+ "TV" +:+ c +:+ post
    ∧ Js.toUpperCase o = "<FRIENDLYNAME>"
    ∧ Js.toUpperCase c = "</FRIENDLYNAME>"
    ∧ Js.all (λ x, negb (isLineTerminator x)) "TV" = true.
Proof.
  apply (name_from_descriptor_is_element_content
           ("Samsung" +:+ String LF "LOCATION: http://10.0.0.2/dd.xml")
           "10.0.0.2" "http://10.0.0.2/dd.xml"
           "<a><friendlyName>TV</friendlyName></a>" "TV" []
           (mkDevice (Some "TV") "10.0.0.2" sentinel_mac));
    try reflexivity.
  discriminate.
Defined.

(** ** Repeated headers *)

Section RepeatedHeaders.
Implicit Types (K l : string) (ls : list string) (obj : gmap string string).

Lemma parse_line_header obj l :
  parse_line obj l
  = match header_of l with
    | Some (k, v) => <[k := v]> obj
    | None => obj
    end.
Proof. unfold parse_line, header_of. by destruct (Js.indexOf ":" l). Qed.

Lemma values_of_snoc K ls l :
  values_of K (ls ++ [l])
  = values_of K ls
    ++ match header_of l with
       | Some (k, v) => if bool_decide (k = K) then [v] else []
       | None => []
       end.
Proof.
  unfold values_of. rewrite omap_app. f_equal. simpl.
  destruct (header_of l) as [[k v]|]; [|done]. by case_bool_decide.
Qed.

Lemma parse_lines_lookup ls K : parse_lines ls !! K = last (values_of K ls).
Proof.
  induction ls as [|l ls IH] using rev_ind; [done|].
  rewrite parse_lines_app, values_of_snoc. simpl. rewrite parse_line_header.
  destruct (header_of l) as [[k v]|]; [|by rewrite app_nil_r].
  rewrite lookup_insert. case_bool_decide as Hk.
  - rewrite decide_True by done. by rewrite last_snoc.
  - rewrite decide_False by done. by rewrite app_nil_r.
Qed.

End RepeatedHeaders.

(** X5.  A header of a block of ASCII text has the value given by the
    last line that carries its key, the keys being compared after
    trimming and upper-casing; it is absent when no line carries the
    key. *)
Theorem header_value_is_last_occurrence (lines : list string) (K : string) :
  Forall is_ascii lines → Forall is_line lines →
  parse_headers (unlines lines) !! K = last (values_of K lines).
Proof.
  intros _ Hlines. rewrite parse_headers_unlines by done.
  apply parse_lines_lookup.
Qed.

(** Two LOCATION lines in different letter case: the second one counts. *)
Lemma header_value_is_last_occurrence_witness :
  parse_headers
    (unlines ["Location: http://10.0.0.2/a"; "ST: x";
              "LOCATION : http://10.0.0.2/b"]) !! "LOCATION"
  = Some "http://10.0.0.2/b".
Proof.
  rewrite (header_value_is_last_occurrence
             ["Location: http://10.0.0.2/a"; "ST: x";
              "LOCATION : http://10.0.0.2/b"] "LOCATION").
  - reflexivity.
  - repeat constructor.
  - repeat constructor.
Defined.

(** ** Runs of the cache *)

Section CacheFacts.
Implicit Types (m : gmap string entry) (fresh : list DeviceInfo).
Implicit Types (f : cache_file).

Lemma merge_cons m d fresh :
  merge m (d :: fresh) = merge (<[mac d := Fresh d]> m) fresh.
Proof. done. Qed.

Lemma dom_merge m fresh : dom (merge m fresh) = dom m ∪ macs fresh.
Proof.
  revert m. unfold macs. induction fresh as [|d fresh IH]; intros m.
  - simpl. by rewrite union_empty_r_L.
  - rewrite merge_cons, IH, dom_insert_L, fmap_cons, list_to_set_cons.
    by rewrite (union_comm_L {[mac d]} (dom m)), union_assoc_L.
Qed.

Lemma run_save_fails s f fresh :
  save_fails s = true →
  getCachedSamsungDevices_in s f fresh = mkOutcome None None.
Proof.
  unfold save_fails, getCachedSamsungDevices_in. intros H.
  destruct (assign_all (load f) fresh); [|done].
  destruct (stringify_throws s); [done|]. simpl in H. by rewrite H.
Qed.

Lemma run_save_succeeds s f fresh :
  save_fails s = false →
  getCachedSamsungDevices_in s f fresh = getCachedSamsungDevices f fresh.
Proof.
  unfold save_fails, getCachedSamsungDevices, getCachedSamsungDevices_in.
  intros [-> ->]%orb_false_iff. done.
Qed.

Lemma run_on_object f m fresh :
  load f = Obj m →
  getCachedSamsungDevices f fresh
  = mkOutcome (Some (DObject (entry_json <$> merge m fresh)))
              (Some (map_to_list (merge m fresh)).*2).
Proof.
  intros Hload. unfold getCachedSamsungDevices, getCachedSamsungDevices_in.
  by rewrite Hload, assign_all_obj.
Qed.



Lemma assign_all_arr items props fresh :
  Forall (λ d, mac d ≠ "length") fresh →
  ∃ items' props', assign_all (Arr items props) fresh = Some (Arr items' props').
Proof.
  intros Hfresh. revert items props.
  induction Hfresh as [|d fresh Hd _ IH]; intros items props.
  - by eexists _, _.
  - simpl. destruct (arrayIndex (mac d)); simpl; [apply IH|].
    rewrite bool_decide_eq_false_2 by done. apply IH.
Qed.

Lemma load_null_iff f :
  load f = Null ↔ ∃ text, f = Content text ∧ Json.parse text = Some JNull.
Proof.
  split.
  - unfold load. destruct f as [|text]; [done|].
    destruct (Json.parse text) as [j|] eqn:Hp; [|done].
    destruct j; try done. intros _. by exists text.
  - intros (text & -> & Hp). unfold load. by rewrite Hp.
Qed.

Lemma load_shape f :
  (∃ m, load f = Obj m) ∨ (∃ items, load f = Arr items ∅) ∨ load f = Null.
Proof.
  unfold load. destruct f as [|text]; [by left; eexists|].
  destruct (Json.parse text) as [[]|]; simpl; eauto.
Qed.

End CacheFacts.



(** X7.  With the list that discovery resolved with, the run of the
    cache ends in an exception exactly when the cache file holds the JSON
    value [null], [JSON.stringify] throws or [writeFile] rejects. *)
Theorem cache_run_throws_only_on_null (timeMs startTime : Z)
    (events : list event) (ds : list DeviceInfo) (s : saving)
    (f : cache_file) :
  getSamsungDevices timeMs startTime events = Some ds →
  returned (getCachedSamsungDevices_in s f ds) = None
  ↔ (∃ text, f = Content text ∧ Json.parse text = Some JNull)
    ∨ stringify_throws s = true ∨ writeFile_rejects s = true.
Proof.
  intros Hres. rewrite <- load_null_iff.
  assert (Hmacs : Forall (λ d, mac d ≠ "length") ds).
  { apply Forall_forall. intros d Hd. apply mac_text_not_length.
    destruct (discovered_from_reply _ _ _ _ _ Hres Hd) as (? & ? & ? & _ & _ & ->).
    apply record_mac_text. }
  destruct (save_fails s) eqn:Hs.
  { rewrite run_save_fails by done. split; [|done]. intros _. right.
    unfold save_fails in Hs. by apply orb_true_iff in Hs. }
  rewrite run_save_succeeds by done.
  apply orb_false_iff in Hs as [Hs1 Hs2]. rewrite Hs1, Hs2.
  unfold getCachedSamsungDevices, getCachedSamsungDevices_in.
  destruct (load_shape f) as [[m Hl]|[[items Hl]|Hl]]; rewrite Hl.
  - rewrite assign_all_obj. simpl. split; [done|]. by intros [?|[?|?]].
  - destruct (assign_all_arr items ∅ ds Hmacs) as (i' & p' & ->).
    simpl. split; [done|]. by intros [?|[?|?]].
  - split; [by left|]. intros _. destruct ds; [done|]. done.
Qed.

(** An array in the cache file and a save that succeeds: the run does
    not throw. *)
Lemma cache_run_throws_only_on_null_witness :
  getSamsungDevices 250 1000 [Reply FetchThrows "Samsung" "10.0.0.2"; Tick 1025]
  = Some [mkDevice (Some "10.0.0.2") "10.0.0.2" sentinel_mac]
  ∧ (returned (getCachedSamsungDevices_in saving_succeeds (Content "[1]")
                 [mkDevice (Some "10.0.0.2") "10.0.0.2" sentinel_mac]) = None
     ↔ (∃ text, Content "[1]" = Content text
                ∧ Json.parse text = Some JNull)
       ∨ stringify_throws saving_succeeds = true
       ∨ writeFile_rejects saving_succeeds = true).
Proof.
  split; [reflexivity|].
  apply (cache_run_throws_only_on_null 250 1000
           [Reply FetchThrows "Samsung" "10.0.0.2"; Tick 1025]).
  reflexivity.
Defined.



(** X9.  When the cache file loads as a mapping, the run returns no
    device, which is when [main] gives up, exactly when the save
    succeeds, the cache is empty and discovery found nothing; [main]
    then exits with a failure and has made no call on a remote. *)
Theorem no_device_only_without_cache_and_discovery (s : saving)
    (f : cache_file) (m : gmap string entry) (fresh : list DeviceInfo) :
  load f = Obj m →
  (returned (getCachedSamsungDevices_in s f fresh) = Some []
   ↔ stringify_throws s = false ∧ writeFile_rejects s = false
     ∧ m = ∅ ∧ fresh = [])
  ∧ (∀ (truthy : entry → bool) reads,
       main truthy [] reads = mkRun None [] ExitFailure).
Proof.
  intros Hload. split; [|done].
  destruct (save_fails s) eqn:Hs.
  { rewrite run_save_fails by done. split; [done|].
    intros (Hs1 & Hs2 & _). unfold save_fails in Hs.
    by rewrite Hs1, Hs2 in Hs. }
  rewrite run_save_succeeds by done.
  apply orb_false_iff in Hs as [Hs1 Hs2].
  rewrite (run_on_object _ _ _ Hload). cbn [returned]. split.
  - intros [= Hvs]. apply fmap_nil_inv, map_to_list_empty_iff in Hvs.
    apply dom_empty_iff_L in Hvs. rewrite dom_merge in Hvs.
    apply empty_union_L in Hvs as [Hm Hfresh].
    split; [done|]. split; [done|].
    split; [by apply dom_empty_iff_L|].
    destruct fresh as [|d fresh]; [done|].
    unfold macs in Hfresh. rewrite fmap_cons, list_to_set_cons in Hfresh.
    apply empty_union_L in Hfresh as [Hd _].
    by apply non_empty_singleton_L in Hd.
  - intros (_ & _ & -> & ->). done.
Qed.

(** A cache with one entry and a pass that finds nothing. *)
Lemma no_device_only_without_cache_and_discovery_witness :
  returned
    (getCachedSamsungDevices_in saving_succeeds
       (Content ("{" +:+ String Json.quote ("A" +:+ String Json.quote ":1}")))
       []) = Some []
  ↔ stringify_throws saving_succeeds = false
    ∧ writeFile_rejects saving_succeeds = false
    ∧ ({["A" := Cached (JNumber "1")]} : gmap string entry) = ∅
    ∧ @nil DeviceInfo = [].
Proof.
  apply (no_device_only_without_cache_and_discovery saving_succeeds
           (Content ("{" +:+ String Json.quote ("A" +:+ String Json.quote ":1}")))).
  vm_compute. reflexivity.
Defined.

(** ** The cache path *)

(** X10.  Given what the platform, the two environment variables and
    the home directory evaluate to, a cache path that is computed ends
    in the fixed file name.  On darwin it is made of the home directory
    and does not depend on the two variables; on win32 it does not
    depend on XDG_CACHE_HOME and elsewhere not on LOCALAPPDATA; the
    variable of the platform, when it is set and not empty, is the
    directory of the path, the home directory not being asked for;
    when it is empty it counts as undefined, and the directory is then
    made of the home directory. *)
Theorem cache_path_reads_one_variable (platform : string)
    (LOCALAPPDATA XDG_CACHE_HOME homedir : option string) :
  (∀ path, cachePath platform LOCALAPPDATA XDG_CACHE_HOME homedir = Some path →
     ∃ dir, path = dir +:+ "/badisi-samsung-tv-remote-device-cache.json")
  ∧ (platform = "darwin" →
     cachePath platform LOCALAPPDATA XDG_CACHE_HOME homedir
     = (λ home, home +:+ "/Library/Caches/badisi-samsung-tv-remote-device-cache.json")
       <$> homedir)
  ∧ (platform = "win32" →
     cachePath platform LOCALAPPDATA XDG_CACHE_HOME homedir
     = match LOCALAPPDATA with
       | Some (String c dir) =>
           Some (String c dir
                 +:+ "/badisi-samsung-tv-remote-device-cache.json")
       | Some "" | None =>
           (λ home, home +:+ "/AppData/Local"
                    +:+ "/badisi-samsung-tv-remote-device-cache.json")
           <$> homedir
       end)
  ∧ (platform ≠ "darwin" → platform ≠ "win32" →
     cachePath platform LOCALAPPDATA XDG_CACHE_HOME homedir
     = match XDG_CACHE_HOME with
       | Some (String c dir) =>
           Some (String c dir
                 +:+ "/badisi-samsung-tv-remote-device-cache.json")
       | Some "" | None =>
           (λ home, home +:+ "/.cache"
                    +:+ "/badisi-samsung-tv-remote-device-cache.json")
           <$> homedir
       end).
Proof.
  unfold cachePath, getCachePath, cache_name. split_and!.
  - intros path. repeat case_bool_decide.
    + destruct homedir as [home|]; [|done]. intros [= <-].
      exists (home +:+ "/Library/Caches"). by rewrite !app_assoc'.
    + destruct (orElse _ _) as [dir|]; [|done]. intros [= <-]. by exists dir.
    + destruct (orElse _ _) as [dir|]; [|done]. intros [= <-]. by exists dir.
  - intros ->. done.
  - intros ->. simpl.
    destruct LOCALAPPDATA as [[|c dir]|]; simpl; [|done|];
      destruct homedir as [home|]; simpl; try done;
      by rewrite !app_assoc'.
  - intros H1 H2. rewrite !bool_decide_eq_false_2 by done.
    destruct XDG_CACHE_HOME as [[|c dir]|]; simpl; [|done|];
      destruct homedir as [home|]; simpl; try done;
      by rewrite !app_assoc'.
Qed.

(** A Linux machine with XDG_CACHE_HOME set. *)
Lemma cache_path_reads_one_variable_witness :
  cachePath "linux" None (Some "/home/u/.xdg") None
  = Some "/home/u/.xdg/badisi-samsung-tv-remote-device-cache.json".
Proof.
  destruct (cache_path_reads_one_variable "linux" None (Some "/home/u/.xdg") None)
    as (_ & _ & _ & H).
  rewrite H; [reflexivity|discriminate|discriminate].
Defined.

(** ** Choosing a device and the session *)

Section MainFacts.
Context {A : Type} (truthy : A → bool).
Implicit Types (devices : list A) (reads more rest : list (string * nat)).
Implicit Types (key : string).

Lemma dispatch_shape key :
  (∃ k, k ≠ KEY_POWER ∧ dispatch key = press k)
  ∨ dispatch key = mkTurn [sendKeys [KEY_POWER]] true
  ∨ dispatch key = mkTurn [] true
  ∨ dispatch key = unmapped.
Proof.
  unfold dispatch, key_cases. cbn [switch].
  repeat case_bool_decide;
    first [ by left; eexists; split; [|reflexivity]
          | by right; left
          | by right; right; left
          | by right; right; right ].
Qed.

Lemma dispatch_exits key :
  exits (dispatch key) = true ↔ key = "q" ∨ key = ETX ∨ key = "f".
Proof.
  unfold dispatch, key_cases. cbn [switch].
  repeat case_bool_decide; subst; cbn [exits press unmapped];
    split; try done; try (intros [?|[?|?]]; done); eauto.
Qed.

Lemma key_loop_cons buffer bytesRead rest :
  key_loop ((buffer, bytesRead) :: rest)
  = if exits (main_turn buffer bytesRead)
    then (calls (main_turn buffer bytesRead), true)
    else (calls (main_turn buffer bytesRead) ++ (key_loop rest).1,
          (key_loop rest).2).
Proof.
  cbn [key_loop]. destruct (exits _); [done|]. by destruct (key_loop rest).
Qed.

Lemma key_loop_shape reads :
  ∃ keys, (KEY_POWER ∉ keys)
    ∧ ((key_loop reads).1 = (sendKey <$> keys)
       ∨ ((key_loop reads).1 = (sendKey <$> keys) ++ [sendKeys [KEY_POWER]]
          ∧ (key_loop reads).2 = true)).
Proof.
  induction reads as [|[buffer bytesRead] rest (keys & Hkeys & IH)].
  - exists []. split; [apply not_elem_of_nil|]. by left.
  - rewrite key_loop_cons. unfold main_turn.
    destruct (dispatch_shape (read_key buffer bytesRead))
      as [(k & Hk & Hd)|[Hd|[Hd|Hd]]]; rewrite Hd;
      cbn [exits calls press unmapped fst snd].
    + exists (k :: keys). split; [by apply not_elem_of_cons|].
      destruct IH as [H1|[H1 H2]]; rewrite H1; [by left|right]. done.
    + exists []. split; [apply not_elem_of_nil|]. by right.
    + exists []. split; [apply not_elem_of_nil|]. by left.
    + exists keys. split; [done|]. done.
Qed.

Lemma key_loop_exited_app reads more :
  (key_loop reads).2 = true → key_loop (reads ++ more) = key_loop reads.
Proof.
  induction reads as [|[buffer bytesRead] rest IH]; [done|].
  rewrite <- app_comm_cons, !key_loop_cons.
  destruct (exits _); [done|]. cbn [snd]. intros H. by rewrite IH.
Qed.

Lemma key_loop_exits_iff reads :
  (key_loop reads).2 = true
  ↔ Exists (λ r, let key := read_key r.1 r.2 in
                 key = "q" ∨ key = ETX ∨ key = "f") reads.
Proof.
  induction reads as [|[buffer bytesRead] rest IH].
  - split; [done|]. by intros ?%Exists_nil.
  - rewrite key_loop_cons, Exists_cons. cbn [fst snd]. unfold main_turn.
    destruct (exits (dispatch (read_key buffer bytesRead))) eqn:He.
    + apply dispatch_exits in He. split; [by left|done].
    + cbn [snd]. rewrite IH. split; [by right|].
      intros [Hk|H]; [|done]. apply dispatch_exits in Hk. congruence.
Qed.

Lemma select_loop_cons devices buffer bytesRead rest :
  select_loop truthy devices ((buffer, bytesRead) :: rest)
  = let key := read_key buffer bytesRead in
    if bool_decide (key = "q") then (Cancelled, rest)
    else match element devices (parseInt key) with
         | Some d => if truthy d then (Chosen d, rest)
                     else select_loop truthy devices rest
         | None => select_loop truthy devices rest
         end.
Proof. done. Qed.

Lemma element_elem_of devices number (d : A) :
  element devices number = Some d → d ∈ devices.
Proof.
  unfold element. destruct number as [n|]; [|done].
  destruct (0 <=? n)%Z; [|done]. apply list_elem_of_lookup_2.
Qed.

Lemma select_loop_sound devices reads (d : A) rest :
  select_loop truthy devices reads = (Chosen d, rest) →
  d ∈ devices ∧ truthy d = true ∧ ∃ used, reads = used ++ rest.
Proof.
  induction reads as [|[buffer bytesRead] reads IH]; [done|].
  rewrite select_loop_cons. cbn zeta. case_bool_decide; [done|].
  assert (Hrec : select_loop truthy devices reads = (Chosen d, rest) →
                 d ∈ devices ∧ truthy d = true
                 ∧ ∃ used, (buffer, bytesRead) :: reads = used ++ rest).
  { intros (Hd & Ht & used & ->)%IH. split_and!; [done..|].
    by exists ((buffer, bytesRead) :: used). }
  destruct (element devices _) as [d'|] eqn:Hel; [|done].
  destruct (truthy d') eqn:Ht; [|done].
  intros [= -> ->]. split_and!; [by eapply element_elem_of|done|].
  by exists [(buffer, bytesRead)].
Qed.

Lemma select_loop_decided_app devices reads more :
  (select_loop truthy devices reads).1 ≠ AwaitingKey →
  select_loop truthy devices (reads ++ more)
  = ((select_loop truthy devices reads).1,
     (select_loop truthy devices reads).2 ++ more).
Proof.
  induction reads as [|[buffer bytesRead] reads IH]; [done|].
  rewrite <- app_comm_cons, !select_loop_cons. cbn zeta.
  case_bool_decide; [done|].
  destruct (element devices _) as [d'|]; [|done].
  by destruct (truthy d').
Qed.

Lemma choose_device_sound devices reads (d : A) rest :
  choose_device truthy devices reads = (Chosen d, rest) →
  d ∈ devices ∧ ∃ used, reads = used ++ rest.
Proof.
  unfold choose_device. destruct devices as [|d1 [|d2 devices]]; [done| |].
  - intros [= -> ->]. split; [apply list_elem_of_singleton; done|by exists []].
  - intros (? & _ & ?)%select_loop_sound. done.
Qed.

Lemma parseInt_digit (n : nat) :
  n < 10 → parseInt (String (ascii_of_nat (48 + n)) "") = Some (Z.of_nat n).
Proof.
  intros Hn. do 10 (destruct n as [|n]; [by vm_compute|]). lia.
Qed.

End MainFacts.

(** X11.  When more than one device is offered, a read whose key is the
    single decimal digit [n] chooses the device at index [n] if there is
    one (and it is truthy), leaving the later reads to the key loop; if
    there is no device at that index the read is passed over. *)
Theorem digit_key_chooses_device_at_index {A : Type} (truthy : A → bool)
    (d1 d2 : A) (devices : list A) (buffer : string) (bytesRead n : nat)
    (rest : list (string * nat)) :
  n < 10 →
  read_key buffer bytesRead = String (ascii_of_nat (48 + n)) "" →
  (∀ d, (d1 :: d2 :: devices) !! n = Some d → truthy d = true →
     choose_device truthy (d1 :: d2 :: devices) ((buffer, bytesRead) :: rest)
     = (Chosen d, rest))
  ∧ ((d1 :: d2 :: devices) !! n = None →
     choose_device truthy (d1 :: d2 :: devices) ((buffer, bytesRead) :: rest)
     = choose_device truthy (d1 :: d2 :: devices) rest).
Proof.
  intros Hn Hkey. unfold choose_device. rewrite select_loop_cons. cbn zeta.
  rewrite Hkey, (parseInt_digit n Hn).
  rewrite bool_decide_eq_false_2.
  2:{ do 10 (destruct n as [|n]; [done|]). lia. }
  unfold element. rewrite (proj2 (Z.leb_le 0 (Z.of_nat n))) by lia.
  rewrite Nat2Z.id. split.
  - intros d -> ->. done.
  - intros ->. done.
Qed.

(** Three devices; the key [1] chooses the second, the key [7] none. *)
Lemma digit_key_chooses_device_at_index_witness :
  choose_device (λ _ : string, true) ["a"; "b"; "c"] [("1", 1); ("+", 1)]
  = (Chosen "b", [("+", 1)])
  ∧ choose_device (λ _ : string, true) ["a"; "b"; "c"] [("7", 1); ("2", 1)]
    = choose_device (λ _ : string, true) ["a"; "b"; "c"] [("2", 1)].
Proof.
  split.
  - apply (proj1 (digit_key_chooses_device_at_index (λ _ : string, true)
                    "a" "b" ["c"] "1" 1 1 [("+", 1)]
                    ltac:(lia) eq_refl)); reflexivity.
  - apply (proj2 (digit_key_chooses_device_at_index (λ _ : string, true)
                    "a" "b" ["c"] "7" 1 7 [("2", 1)]
                    ltac:(lia) eq_refl)); reflexivity.
Defined.

(** X12.  When the only device offered, if there is just one, is a
    truthy value, so that the remote can be made for it, a run of [main]
    either chooses no device, makes no call and does not exit
    successfully, or chooses one of the devices offered and then calls
    [wakeTV] first, then sends single keys none of which is the power
    key, and sends the power key at most once, as its last call, upon
    which the process exits successfully; with a device chosen it never
    exits with a failure, and the device chosen is truthy. *)
Theorem session_shape {A : Type} (truthy : A → bool) (devices : list A)
    (reads : list (string * nat)) :
  (∀ d, devices = [d] → truthy d = true) →
  (selectedDevice (main truthy devices reads) = None
   ∧ session (main truthy devices reads) = []
   ∧ finish (main truthy devices reads) ≠ ExitSuccess)
  ∨ ∃ d keys,
      selectedDevice (main truthy devices reads) = Some d
      ∧ d ∈ devices ∧ truthy d = true ∧ (KEY_POWER ∉ keys)
      ∧ finish (main truthy devices reads) ≠ ExitFailure
      ∧ (session (main truthy devices reads)
         = wakeTV :: (remote <$> (sendKey <$> keys))
         ∨ (session (main truthy devices reads)
            = wakeTV :: (remote <$> (sendKey <$> keys))
                     ++ [remote (sendKeys [KEY_POWER])]
            ∧ finish (main truthy devices reads) = ExitSuccess)).
Proof.
  intros Hone. unfold main.
  destruct (choose_device truthy devices reads) as [[| |d|] rest] eqn:Hc;
    [by left..| |by left].
  right. destruct (choose_device_sound _ _ _ _ _ Hc) as [Hd _].
  assert (Htruthy : truthy d = true).
  { destruct devices as [|d1 [|d2 devices]]; [done| |].
    - injection Hc as <- _. by apply Hone.
    - cbn [choose_device] in Hc.
      by destruct (select_loop_sound _ _ _ _ _ Hc) as (_ & ? & _). }
  destruct (key_loop_shape rest) as (keys & Hkeys & Hshape).
  destruct (key_loop rest) as [cs exited]. cbn [fst snd] in Hshape.
  exists d, keys. cbn [selectedDevice session finish].
  split_and!; [done..|by destruct exited|].
  destruct Hshape as [->|[-> ->]]; [by left|right].
  by rewrite fmap_app.
Qed.

(** One device, a record, and the key [q]: the television is woken and
    switched off, and the process exits. *)
Lemma session_shape_witness :
  (selectedDevice
     (main (λ _ : DeviceInfo, true)
           [mkDevice (Some "tv") "10.0.0.2" sentinel_mac] [("q", 1)]) = None
   ∧ session
       (main (λ _ : DeviceInfo, true)
             [mkDevice (Some "tv") "10.0.0.2" sentinel_mac] [("q", 1)]) = []
   ∧ finish
       (main (λ _ : DeviceInfo, true)
             [mkDevice (Some "tv") "10.0.0.2" sentinel_mac] [("q", 1)])
     ≠ ExitSuccess)
  ∨ ∃ d keys,
      selectedDevice
        (main (λ _ : DeviceInfo, true)
              [mkDevice (Some "tv") "10.0.0.2" sentinel_mac] [("q", 1)])
      = Some d
      ∧ d ∈ [mkDevice (Some "tv") "10.0.0.2" sentinel_mac]
      ∧ (λ _ : DeviceInfo, true) d = true ∧ (KEY_POWER ∉ keys)
      ∧ finish
          (main (λ _ : DeviceInfo, true)
                [mkDevice (Some "tv") "10.0.0.2" sentinel_mac] [("q", 1)])
        ≠ ExitFailure
      ∧ (session
           (main (λ _ : DeviceInfo, true)
                 [mkDevice (Some "tv") "10.0.0.2" sentinel_mac] [("q", 1)])
         = wakeTV :: (remote <$> (sendKey <$> keys))
         ∨ (session
              (main (λ _ : DeviceInfo, true)
                    [mkDevice (Some "tv") "10.0.0.2" sentinel_mac]
                    [("q", 1)])
            = wakeTV :: (remote <$> (sendKey <$> keys))
                     ++ [remote (sendKeys [KEY_POWER])]
            ∧ finish
                (main (λ _ : DeviceInfo, true)
                      [mkDevice (Some "tv") "10.0.0.2" sentinel_mac]
                      [("q", 1)])
              = ExitSuccess)).
Proof.
  apply (session_shape (λ _ : DeviceInfo, true)
           [mkDevice (Some "tv") "10.0.0.2" sentinel_mac] [("q", 1)]).
  intros d _. reflexivity.
Defined.

(** X13.  Once [main] has exited, with a failure or successfully, no
    further input changes what it did. *)
Theorem input_after_exit_is_ignored {A : Type} (truthy : A → bool)
    (devices : list A) (reads more : list (string * nat)) :
  finish (main truthy devices reads) ≠ Running →
  main truthy devices (reads ++ more) = main truthy devices reads.
Proof.
  assert (Hloop : ∀ (d : A) rest,
    finish (let '(cs, exited) := key_loop rest in
            mkRun (Some d) (wakeTV :: (remote <$> cs))
                  (if exited then ExitSuccess else Running)) ≠ Running →
    key_loop (rest ++ more) = key_loop rest).
  { intros d rest Hf. apply key_loop_exited_app.
    destruct (key_loop rest) as [cs []]; [done|]. by cbn in Hf. }
  unfold main, choose_device.
  destruct devices as [|d1 [|d2 devices]]; [done| |].
  - intros Hf. by rewrite (Hloop _ _ Hf).
  - intros Hf.
    assert (Hdec : (select_loop truthy (d1 :: d2 :: devices) reads).1
                   ≠ AwaitingKey).
    { intros Hw. destruct (select_loop _ _ reads) as [c r].
      cbn [fst] in Hw. subst c. by cbn in Hf. }
    rewrite (select_loop_decided_app _ _ _ _ Hdec).
    destruct (select_loop truthy (d1 :: d2 :: devices) reads) as [[| |d|] r];
      cbn [fst snd] in *; try done.
    by rewrite (Hloop _ _ Hf).
Qed.

(** After [q] the keys [+] and [1] are not sent. *)
Lemma input_after_exit_is_ignored_witness :
  main (λ _ : string, true) ["tv"] ([("p", 1); ("q", 1)] ++ [("+", 1); ("1", 1)])
  = main (λ _ : string, true) ["tv"] [("p", 1); ("q", 1)].
Proof.
  apply input_after_exit_is_ignored. discriminate.
Defined.

(** X14.  The key loop exits exactly when one of the reads gives the key
    [q], the byte ETX or [f]; every other key, mapped or not, is followed
    by another read. *)
Theorem key_loop_exits_on_q_etx_f (reads : list (string * nat)) :
  (key_loop reads).2 = true
  ↔ Exists (λ r, let key := read_key r.1 r.2 in
                 key = "q" ∨ key = ETX ∨ key = "f") reads.
Proof. apply key_loop_exits_iff. Qed.

(** X15.  For an accepted reply of ASCII text whose descriptor fetch
    fails, or that has no LOCATION header, or an empty one, the record
    pushed has the source address of the reply as its name and as its
    [ip]. *)
Theorem name_falls_back_to_address (f : fetched)
    (response address : string) (ds : list DeviceInfo) :
  is_ascii response →
  Js.includes "Samsung" response = true →
  f = FetchThrows
  ∨ parse_headers response !! "LOCATION" = None
  ∨ parse_headers response !! "LOCATION" = Some "" →
  on_message f response address ds
  = ds ++ [mkDevice (Some address) address
                    (default sentinel_mac (macMatch response))].
Proof.
  intros _ Hacc Hf. rewrite on_message_accepted by done. do 3 f_equal.
  destruct Hf as [->|Hloc].
  - apply resolve_name_fetch_throws.
  - by apply resolve_name_no_location.
Qed.

(** A LOCATION header without a value: the descriptor that the fetch
    would give is not used. *)
Lemma name_falls_back_to_address_witness :
  on_message (FetchText "<friendlyName>TV</friendlyName>")
    ("Samsung" +:+ String LF "LOCATION:") "10.0.0.2" []
  = [] ++ [mkDevice (Some "10.0.0.2") "10.0.0.2"
             (default sentinel_mac
                (macMatch ("Samsung" +:+ String LF "LOCATION:")))].
Proof.
  apply name_falls_back_to_address; [reflexivity|reflexivity|].
  right. right. reflexivity.
Defined.

(** X16.  A read that delivers more than one character is unmapped
    unless it is one of the four arrow sequences: two keys typed into one
    read make no call on the remote and do not end the loop. *)
Theorem multi_character_frame_is_unmapped (buffer : string)
    (bytesRead : nat) :
  1 < String.length (read_key buffer bytesRead) →
  read_key buffer bytesRead
  ∉ [ESC +:+ "[A"; ESC +:+ "[B"; ESC +:+ "[C"; ESC +:+ "[D"] →
  main_turn buffer bytesRead = unmapped.
Proof.
  intros Hlen Harrow. unfold main_turn.
  apply switch_unlisted. intros Hin. unfold key_cases in Hin.
  cbn [fmap list_fmap fst] in Hin.
  repeat (apply elem_of_cons in Hin as [Hk|Hin];
          [first [ by rewrite Hk in Hlen; vm_compute in Hlen; lia
                 | apply Harrow; rewrite Hk, !elem_of_cons; by auto ]|]).
  by apply elem_of_nil in Hin.
Qed.

(** The keys [+] and [-] arriving in one read. *)
Lemma multi_character_frame_is_unmapped_witness :
  main_turn "+-" 2 = unmapped.
Proof.
  apply multi_character_frame_is_unmapped.
  - vm_compute. lia.
  - intros H. repeat (apply elem_of_cons in H as [H|H]; [discriminate H|]).
    by apply elem_of_nil in H.
Defined.

(** X17.  Two accepted replies without a WAKEUP token both get the
    sentinel as their MAC address, so the cache keeps one entry for the
    two: the record of the later reply, under the sentinel. *)
Theorem devices_without_token_share_one_entry (f1 f2 : fetched)
    (response1 address1 response2 address2 : string)
    (existing : gmap string entry) :
  Js.includes "Samsung" response1 = true →
  Js.includes "Samsung" response2 = true →
  Js.includes "WAKEUP:" response1 = false →
  Js.includes "WAKEUP:" response2 = false →
  on_message f2 response2 address2 (on_message f1 response1 address1 [])
  = [record_of f1 response1 address1; record_of f2 response2 address2]
  ∧ merge existing
      [record_of f1 response1 address1; record_of f2 response2 address2]
    = <[sentinel_mac := Fresh (record_of f2 response2 address2)]> existing.
Proof.
  intros Ha1 Ha2 Hw1 Hw2.
  assert (Hm : ∀ r, Js.includes "WAKEUP:" r = false → macMatch r = None).
  { intros r Hr. destruct (macMatch r) eqn:Hmatch; [|done].
    rewrite macMatch_includes in Hr; [done|by rewrite Hmatch]. }
  split.
  - by rewrite !on_message_accepted.
  - unfold merge, record_of. cbn [foldl mac].
    rewrite (Hm _ Hw1), (Hm _ Hw2). cbn [default].
    apply insert_insert_eq.
Qed.

(** Two sets without a token at different addresses. *)
Lemma devices_without_token_share_one_entry_witness :
  merge ∅ [record_of FetchThrows "Samsung A" "10.0.0.2";
           record_of FetchThrows "Samsung B" "10.0.0.3"]
  = <[sentinel_mac := Fresh (record_of FetchThrows "Samsung B" "10.0.0.3")]> ∅.
Proof.
  apply (devices_without_token_share_one_entry FetchThrows FetchThrows
           "Samsung A" "10.0.0.2" "Samsung B" "10.0.0.3" ∅);
    reflexivity.
Defined.
